(** * travel_agent.py: the itinerary pipeline, embedded and verified

    A shallow embedding of [travel_agent.py]: the geocoder with its provider
    fallbacks, the POI fetcher with its deduplication and ranking, and the
    weather-aware day planner of [itinerary_agent].

    Conventions of the embedding.
    - Python [str] is [string]; [str.lower] and [str.strip] are modelled on
      ASCII (bytes above 127 are left alone, whitespace is what
      [str.isspace] accepts below 128).
    - A dictionary entry that is absent, [None] or the empty string is
      handled alike wherever the source writes [d.get(k) or ""]; such
      fields are plain strings here, with [""] for the missing value.
    - HTTP providers are oracles: functions from a request to its decoded
      response.  Every call is recorded in a log of [event]s, so that a
      theorem can say which requests a function made.
    - [datetime.date] is its proleptic ordinal, an integer. *)

From Stdlib Require Import ZArith QArith Lia List Ascii String Sorted Permutation.
From stdpp Require Import base option list gmap sets strings pretty.

Open Scope string_scope.
Open Scope Z_scope.

(** ** Python string operations *)

Module PyStr.

(** [c.lower()] on one ASCII character. *)
Definition lower_ascii (c : ascii) : ascii :=
  let n := nat_of_ascii c in
  if ((65 <=? n)%nat && (n <=? 90)%nat)%bool then ascii_of_nat (n + 32) else c.

(** [s.lower()]. *)
Fixpoint lower (s : string) : string :=
  match s with
  | EmptyString => EmptyString
  | String c s' => String (lower_ascii c) (lower s')
  end.

(** [s.startswith(p)]. *)
Fixpoint startswith (p s : string) : bool :=
  match p, s with
  | EmptyString, _ => true
  | String _ _, EmptyString => false
  | String a p', String b s' => (Ascii.eqb a b && startswith p' s')%bool
  end.

(** [needle in hay] for two [str]. *)
Fixpoint contains (needle hay : string) : bool :=
  (startswith needle hay ||
   match hay with
   | EmptyString => false
   | String _ hay' => contains needle hay'
   end)%bool.

(** [c.isspace()] below 128: tab to carriage return, the four separators
    and the blank. *)
Definition is_space (c : ascii) : bool :=
  let n := nat_of_ascii c in
  (((9 <=? n)%nat && (n <=? 13)%nat) || ((28 <=? n)%nat && (n <=? 32)%nat))%bool.

(** [s.lstrip()]. *)
Fixpoint lstrip (s : string) : string :=
  match s with
  | EmptyString => EmptyString
  | String c s' => if is_space c then lstrip s' else s
  end.

(** [s.rstrip()]. *)
Fixpoint rstrip (s : string) : string :=
  match s with
  | EmptyString => EmptyString
  | String c s' =>
      match rstrip s' with
      | EmptyString => if is_space c then EmptyString else String c EmptyString
      | r => String c r
      end
  end.

(** [s.strip()]. *)
Definition strip (s : string) : string := rstrip (lstrip s).

(** [s.split(",")[0]]: the text before the first comma. *)
Fixpoint before_comma (s : string) : string :=
  match s with
  | EmptyString => EmptyString
  | String c s' => if Ascii.eqb c "," then EmptyString else String c (before_comma s')
  end.

(** [len(s.split())]: the number of maximal runs of non-blank characters.
    [inword] tells whether the previous character was part of a word. *)
Fixpoint count_words_from (inword : bool) (s : string) : nat :=
  match s with
  | EmptyString => 0
  | String c s' =>
      if is_space c then count_words_from false s'
      else ((if inword then 0 else 1) + count_words_from true s')%nat
  end.

Definition count_words (s : string) : nat := count_words_from false s.

(** [sep.join(parts)]. *)
Fixpoint join (sep : string) (parts : list string) : string :=
  match parts with
  | [] => ""
  | [p] => p
  | p :: rest => p ++ sep ++ join sep rest
  end.

(** Every character of [s] is blank. *)
Fixpoint all_space (s : string) : bool :=
  match s with
  | EmptyString => true
  | String c s' => (is_space c && all_space s')%bool
  end.

(** A string is truthy when it is not empty. *)
Definition nonempty (s : string) : bool :=
  match s with EmptyString => false | _ => true end.

End PyStr.

Import PyStr.

(** ** Values decoded from the providers' JSON *)

(** A Python [float]. *)
Inductive pyfloat : Type :=
  | Fin (q : Q)
  | PInf
  | NInf
  | NaN.

(** [x >= c] for a float [x] and a finite constant [c]. *)
Definition fge (x : pyfloat) (c : Q) : bool :=
  match x with
  | Fin q => Qle_bool c q
  | PInf => true
  | NInf | NaN => false
  end.

(** [x <= c]. *)
Definition fle (x : pyfloat) (c : Q) : bool :=
  match x with
  | Fin q => Qle_bool q c
  | NInf => true
  | PInf | NaN => false
  end.

(** [x > c]. *)
Definition fgt (x : pyfloat) (c : Q) : bool :=
  match x with
  | Fin q => negb (Qle_bool q c)
  | PInf => true
  | NInf | NaN => false
  end.

(** One cell of a forecast array: a number, or JSON [null]. *)
Inductive jnum : Type :=
  | JNum (x : pyfloat)
  | JNull.

(** [float(v)]: [None] stands for the [TypeError] raised on [null]. *)
Definition to_float (v : jnum) : option pyfloat :=
  match v with
  | JNum x => Some x
  | JNull => None
  end.

(** The dictionary built by [_make_links_for_coords]. *)
Record links : Type := MkLinks {
  openstreetmap : string;
  google_maps : string;
  wikipedia_search : string
}.

(** The dictionary returned by the geocoders.  [g_class] and [g_type] are
    only written by the Nominatim path and read by nobody; they are [""]
    on the OpenTripMap path. *)
Record place_info : Type := MkPlace {
  g_lat : pyfloat;
  g_lon : pyfloat;
  g_name : string;
  g_class : string;
  g_type : string;
  g_category : string;
  g_links : links
}.

(** The answer of OpenTripMap's geoname endpoint, once it holds numeric
    ["lat"] and ["lon"]; [og_name] is [None] when the key is absent. *)
Record otm_geoname_reply : Type := MkOtmGeo {
  og_lat : pyfloat;
  og_lon : pyfloat;
  og_name : option string;
  og_type : string
}.

(** One candidate of a Nominatim answer.  [ni_lat] and [ni_lon] are [None]
    when the key is absent or [float] rejects it; [ni_display_name] is
    [None] when the key is absent. *)
Record nominatim_item : Type := MkNomItem {
  ni_display_name : option string;
  ni_lat : option pyfloat;
  ni_lon : option pyfloat;
  ni_class : string;
  ni_type : string
}.

(** A point of interest as the fetchers return it. *)
Record poi : Type := MkPoi {
  poi_name : string;
  poi_kinds : string;
  poi_dist : option pyfloat
}.

(** One feature of an OpenTripMap radius answer: the entry that the loop
    of [fetch_pois_opentripmap] builds from its properties, and its
    [xid]. *)
Record otm_feature : Type := MkFeature {
  ft_entry : poi;
  ft_xid : option string
}.

(** One element of an Overpass answer: its [tags] dictionary. *)
Record element : Type := MkElement {
  el_tags : gmap string string
}.

(** The ["daily"] dictionary of Open-Meteo, with the keys the request
    asks for; a field is [None] when its key is absent. *)
Record weather : Type := MkWeather {
  w_time : option (list string);
  w_tmax : option (list jnum);
  w_tmin : option (list jnum);
  w_precip : option (list jnum);
  w_weathercode : option (list jnum)
}.

(** The empty dictionary [{}]. *)
Definition no_weather : weather := MkWeather None None None None None.

(** [not weather]: the dictionary has no key at all. *)
Definition weather_is_empty (w : weather) : bool :=
  match w_time w, w_tmax w, w_tmin w, w_precip w, w_weathercode w with
  | None, None, None, None, None => true
  | _, _, _, _, _ => false
  end.

(** ** The outside world *)

(** Requests sent to a provider. *)
Inductive event : Type :=
  | OtmGeoname (place : string)
  | NominatimSearch (q user_agent : string)
  | OtmRadius (lat lon : pyfloat) (radius limit : Z)
  | OtmXid (xid : string)
  | OverpassQuery (lat lon : pyfloat) (radius limit : Z)
  | OpenMeteo (lat lon : pyfloat) (start_date end_date : string).

(** The environment of one run: configuration, providers, and the library
    functions whose results are text or dates.  A provider answers [None]
    where the source's [try] block would catch an exception. *)
Record world : Type := MkWorld {
  OPENTRIPMAP_API_KEY : bool;
  otm_geoname : string -> option otm_geoname_reply;
  nominatim_search : string -> string -> option (list nominatim_item);
  otm_radius : pyfloat -> pyfloat -> Z -> Z -> list otm_feature;
  overpass : pyfloat -> pyfloat -> Z -> Z -> option (list element);
  open_meteo : pyfloat -> pyfloat -> string -> string -> option weather;
  parse_date : string -> option Z;
  isoformat : Z -> string;
  today : Z;
  show_float : pyfloat -> string;
  show_jnum : jnum -> string;
  quote_plus : string -> string
}.

(** Computations that talk to providers: a result and the requests made,
    oldest first. *)
Definition IO (A : Type) : Type := (A * list event)%type.

Definition io_ret {A} (a : A) : IO A := (a, []).

Definition io_bind {A B} (m : IO A) (f : A -> IO B) : IO B :=
  let '(a, l1) := m in
  let '(b, l2) := f a in
  (b, (l1 ++ l2)%list).

Definition request {A} (e : event) (answer : A) : IO A := (answer, [e]).

Notation "'call' x <- m ; k" := (io_bind m (fun x => k))
  (at level 10, x name, m at level 99, k at level 200).

(** ** Geocoding *)

Section Geocoder.

Variable W : world.

Definition _make_links_for_coords (lat lon : pyfloat) (name : string) : links :=
  let slat := show_float W lat in
  let slon := show_float W lon in
  let osm := "https://www.openstreetmap.org/?mlat=" ++ slat ++ "&mlon=" ++ slon
             ++ "#map=12/" ++ slat ++ "/" ++ slon in
  let gmap := "https://www.google.com/maps/search/?api=1&query=" ++ slat ++ "," ++ slon in
  let wiki_q := quote_plus W (if nonempty name then name else slat ++ "," ++ slon) in
  let wiki := "https://en.wikipedia.org/w/index.php?search=" ++ wiki_q in
  MkLinks osm gmap wiki.

Definition geocode_opentripmap (place : string) : IO (option place_info) :=
  if OPENTRIPMAP_API_KEY W then
    call d <- request (OtmGeoname place) (otm_geoname W place) ;
    io_ret
      (match d with
       | Some d =>
           let name := default place (og_name d) in
           Some (MkPlace (og_lat d) (og_lon d) name "" ""
                   (if nonempty (og_type d) then og_type d else "place")
                   (_make_links_for_coords (og_lat d) (og_lon d) name))
       | None => None
       end)
  else io_ret None.

(** The category derived from a candidate's class and type. *)
Definition category_of (fclass ftype : string) : string :=
  let class_type := lower (fclass ++ ":" ++ ftype) in
  if (contains "beach" class_type || contains "beach" ftype)%bool then "beach"
  else if existsb (fun x => contains x class_type)
            ["peak"; "mountain"; "hill"; "ridge"; "valley"; "mountain_range"]
  then "mountain/hill"
  else if (contains "city" class_type || contains "town" class_type
           || contains "village" class_type || contains "county" class_type)%bool
  then "city"
  else if (contains "water" class_type || contains "river" class_type)%bool
  then "water"
  else "other".

(** The candidate whose display name holds the query token, if any. *)
Definition prefer_token (qtoken : string) (items : list nominatim_item)
  : option nominatim_item :=
  List.find (fun it =>
     (nonempty qtoken && contains qtoken (lower (default "" (ni_display_name it))))%bool)
    items.

Definition geocode_nominatim_once (place user_agent : string) : IO (option place_info) :=
  call r <- request (NominatimSearch place user_agent) (nominatim_search W place user_agent) ;
  io_ret
    (match r with
     | None | Some [] => None
     | Some ((first :: _) as items) =>
         let qtoken := lower (strip (before_comma place)) in
         let chosen := default first (prefer_token qtoken items) in
         match ni_lat chosen, ni_lon chosen with
         | Some lat, Some lon =>
             let display_name := default place (ni_display_name chosen) in
             let fclass := ni_class chosen in
             let ftype := ni_type chosen in
             Some (MkPlace lat lon display_name fclass ftype (category_of fclass ftype)
                     (_make_links_for_coords lat lon display_name))
         | _, _ => None
         end
     end).

Definition user_agents : list string :=
  ["LangGraph-Travel-Agent/1.0"; "Mozilla/5.0 (compatible; LangGraphAgent/1.0)"].

(** The loop over the user agents: the first answer wins. *)
Fixpoint try_user_agents (place : string) (uas : list string) : IO (option place_info) :=
  match uas with
  | [] => io_ret None
  | ua :: rest =>
      call res <- geocode_nominatim_once place ua ;
      match res with
      | Some g => io_ret (Some g)
      | None => try_user_agents place rest
      end
  end.

Definition geocode_nominatim (place : string) : IO (option place_info) :=
  call res <- try_user_agents place user_agents ;
  match res with
  | Some g => io_ret (Some g)
  | None =>
      if (negb (contains "," place) && (count_words place <=? 3)%nat)%bool then
        geocode_nominatim_once (place ++ ", India") "LangGraph-Travel-Agent/1.0"
      else io_ret None
  end.

Definition geocode_city (place : string) : IO (option place_info) :=
  let place := strip place in
  if negb (nonempty place) then io_ret None
  else
    call g <- geocode_opentripmap place ;
    match g with
    | Some g => io_ret (Some g)
    | None =>
        call g <- geocode_nominatim place ;
        match g with
        | None => io_ret None
        | Some g =>
            let token := lower (strip (before_comma place)) in
            let display_lower := lower (g_name g) in
            if (nonempty token && negb (contains token display_lower)
                && negb (contains "india" display_lower))%bool
            then
              call alt <- geocode_nominatim (place ++ ", India") ;
              match alt with
              | Some a => io_ret (Some a)
              | None => io_ret (Some g)
              end
            else io_ret (Some g)
        end
    end.

End Geocoder.

(** ** Fetching points of interest and weather *)

(** [l[:n]] for a Python list: a negative [n] counts from the end. *)
Definition py_take {A} (n : Z) (l : list A) : list A :=
  if 0 <=? n then firstn (Z.to_nat n) l
  else firstn (length l - Z.to_nat (- n)) l.

(** [l.sort(key=key)]: Python's sort is ascending and stable; insertion
    from the right is the simplest sort with that contract. *)
Fixpoint insert_by {A} (key : A -> Z) (x : A) (l : list A) : list A :=
  match l with
  | [] => [x]
  | y :: l' => if key x <=? key y then x :: l else y :: insert_by key x l'
  end.

Fixpoint sort_by {A} (key : A -> Z) (l : list A) : list A :=
  match l with
  | [] => []
  | x :: l' => insert_by key x (sort_by key l')
  end.

(** The kinds ranked by [fetch_pois], best first. *)
Definition priority : list string :=
  ["attraction"; "museum"; "memorial"; "monument"; "historic"; "park";
   "marketplace"; "gallery"].

(** The loop of [score] over [enumerate(priority)], entered at index [i]. *)
Fixpoint score_from (i : nat) (ks : list string) (kinds : string) : Z :=
  match ks with
  | [] => 0
  | k :: ks' =>
      if contains k kinds then - (Z.of_nat (length priority) - Z.of_nat i)
      else score_from (S i) ks' kinds
  end.

Definition score (p : poi) : Z := score_from 0 priority (lower (poi_kinds p)).

(** The key under which both fetchers deduplicate a name. *)
Definition name_key (name : string) : string := lower (strip name).

Section Fetchers.

Variable W : world.

(** The loop of [fetch_pois_opentripmap] over the features: one detail
    request for every feature with an [xid], whose answer only fills the
    [details] of the entry, and one entry per feature. *)
Fixpoint otm_loop (features : list otm_feature) : IO (list poi) :=
  match features with
  | [] => io_ret []
  | p :: features' =>
      call _ <- match ft_xid p with
                | Some xid => if nonempty xid then request (OtmXid xid) tt else io_ret tt
                | None => io_ret tt
                end ;
      call results <- otm_loop features' ;
      io_ret (ft_entry p :: results)
  end.

(** Without a key no request is made; a radius request that fails answers
    with no feature. *)
Definition fetch_pois_opentripmap (lat lon : pyfloat) (radius limit : Z) : IO (list poi) :=
  if OPENTRIPMAP_API_KEY W then
    call features <- request (OtmRadius lat lon radius limit)
                       (otm_radius W lat lon radius limit) ;
    otm_loop features
  else io_ret [].

(** The [kinds] text of an Overpass element. *)
Definition overpass_kinds (tags : gmap string string) : string :=
  let kinds_list := omap (fun k => tags !! k) ["tourism"; "historic"; "leisure"; "amenity"] in
  join "," (List.filter nonempty kinds_list).

(** The loop of [fetch_pois_overpass] over the elements. *)
Fixpoint overpass_loop (limit : Z) (el : list element) (seen : gset string)
    (results : list poi) : list poi :=
  match el with
  | [] => results
  | e :: el' =>
      let tags := el_tags e in
      let name := default "" (tags !! "name") in
      if negb (nonempty name) then overpass_loop limit el' seen results
      else
        let kinds := overpass_kinds tags in
        let key := lower (strip name) in
        if decide (key ∈ seen) then overpass_loop limit el' seen results
        else
          let seen := seen ∪ {[ key ]} in
          let results :=
            (results ++ [MkPoi name (if nonempty kinds then kinds else "unknown") None])%list in
          if Z.of_nat (length results) >=? limit then results
          else overpass_loop limit el' seen results
  end.

Definition fetch_pois_overpass (lat lon : pyfloat) (radius limit : Z) : IO (list poi) :=
  call r <- request (OverpassQuery lat lon radius limit) (overpass W lat lon radius limit) ;
  io_ret
    (match r with
     | Some el => overpass_loop limit el ∅ []
     | None => []
     end).

(** The deduplication loop of [fetch_pois] on the primary result. *)
Fixpoint primary_loop (pois : list poi) (seen : gset string) (filtered : list poi)
  : list poi :=
  match pois with
  | [] => filtered
  | p :: pois' =>
      let name := strip (poi_name p) in
      if negb (nonempty name) then primary_loop pois' seen filtered
      else
        let key := lower name in
        if decide (key ∈ seen) then primary_loop pois' seen filtered
        else primary_loop pois' (seen ∪ {[ key ]}) (filtered ++ [p])%list
  end.

Definition fetch_pois (lat lon : pyfloat) (radius limit : Z) : IO (list poi) :=
  call pois <- fetch_pois_opentripmap lat lon radius limit ;
  match pois with
  | _ :: _ => io_ret (py_take limit (primary_loop pois ∅ []))
  | [] =>
      call pois2 <- fetch_pois_overpass lat lon radius (Z.max limit 12) ;
      match pois2 with
      | [] => io_ret []
      | _ :: _ => io_ret (py_take limit (sort_by score pois2))
      end
  end.

Definition fetch_weather (lat lon : pyfloat) (start_date end_date : string) : IO weather :=
  call r <- request (OpenMeteo lat lon start_date end_date)
              (open_meteo W lat lon start_date end_date) ;
  io_ret (default no_weather r).

End Fetchers.

(** ** The day planner of [itinerary_agent] *)

(** An entry of [pool]. *)
Record pool_entry : Type := MkEntry {
  pe_name : string;
  pe_is_indoor : bool;
  pe_kinds : string
}.

(** An entry of [rows]. *)
Record row : Type := MkRow {
  r_date : string;
  r_morning : string;
  r_afternoon : string;
  r_evening : string;
  r_notes : string
}.

Definition indoor_kinds : list string :=
  ["museum"; "theatre"; "gallery"; "library"; "cinema"].

Definition make_pool (pool_pois : list poi) : list pool_entry :=
  List.map (fun p =>
     let kinds := lower (poi_kinds p) in
     MkEntry (poi_name p) (existsb (fun k => contains k kinds) indoor_kinds) kinds)
    pool_pois.

(** The variables of the inner [while] loop, with the set and the cursor
    it shares with the enclosing [for]. *)
Record sel : Type := MkSel {
  idx : nat;
  attempts : nat;
  day_selected : list string;
  assigned : gset string
}.

(** How one pass through a loop body ends. *)
Inductive flow : Type :=
  | Next (s : sel)
  | Break (s : sel).

(** The state a pass leaves behind, whichever way it ends. *)
Definition after (f : flow) : sel :=
  match f with Next s | Break s => s end.

(** The variables of the [for] loop over the days.  [p_days] keeps the
    [day_selected] list of every finished day, oldest first; the source
    drops each list once the row is built, the statements below need them. *)
Record planner : Type := MkPlanner {
  p_idx : nat;
  p_assigned : gset string;
  p_rows : list row;
  p_days : list (list string)
}.

Definition free_slot : string := "Free / explore locally".
Definition dinner_slot : string := "Dinner / relax".
Definition neutral_note : string := "No specific weather notes".

Section Planner.

Variable pool : list pool_entry.
Variables precip tmax tmin : list jnum.
Variable daily_limit : Z.

(** The precipitation part of a day's note. *)
Definition precip_part (i : nat) : list string :=
  match precip !! i with
  | Some v =>
      let pr := default (Fin 0) (to_float v) in
      if fge pr 10 then ["Heavy rain expected — favor indoor activities"]
      else if fge pr 2 then ["Chance of rain — have indoor alternatives"]
      else if fgt pr 0 then ["Light showers possible"]
      else ["Good weather for walking"]
  | None => []
  end.

(** The temperature part of a day's note. *)
Definition temp_part (i : nat) : list string :=
  match tmax !! i, tmin !! i with
  | Some vmax, Some vmin =>
      match to_float vmax, to_float vmin with
      | Some mx, Some mn =>
          if fge mx 30 then ["Hot during day"]
          else if fle mx 15 then ["Cool day — bring a jacket"]
          else []
      | _, _ => []
      end
  | _, _ => []
  end.

Definition note_parts (i : nat) : list string := (precip_part i ++ temp_part i)%list.

Definition weather_note_for_day (i : nat) : string :=
  match note_parts i with
  | [] => neutral_note
  | parts => join "; " parts
  end.

(** The flag [rainy] of day [day_index]. *)
Definition rainy_day (day_index : nat) : bool :=
  match precip !! day_index with
  | Some v =>
      match to_float v with
      | Some pr => fge pr 2
      | None => false
      end
  | None => false
  end.

(** [max(1, len(pool)) * 2]. *)
Definition rr_bound : nat := (Nat.max 1 (length pool) * 2)%nat.

(** The condition of the [while] loop. *)
Definition rr_guard (s : sel) : bool :=
  ((Z.of_nat (length (day_selected s)) <? daily_limit) && (attempts s <? rr_bound)%nat)%bool.

(** [day_selected.append(name); assigned.add(name)]. *)
Definition take_poi (name : string) (s : sel) : sel :=
  MkSel (idx s) (attempts s) (day_selected s ++ [name])%list (assigned s ∪ {[ name ]}).

(** One pass through the body of the [while] loop. *)
Definition rr_body (rainy : bool) (s : sel) : flow :=
  let p :=
    match pool with
    | [] => None
    | _ :: _ => pool !! (idx s mod Nat.max 1 (length pool))%nat
    end in
  let s := MkSel (S (idx s)) (S (attempts s)) (day_selected s) (assigned s) in
  match p with
  | None => Break s
  | Some p =>
      if decide (pe_name p ∈ assigned s) then Next s
      else if (rainy && negb (pe_is_indoor p))%bool then Next s
      else Next (take_poi (pe_name p) s)
  end.

(** The [while] loop, run for at most [fuel] passes: [None] when the fuel
    runs out before the loop stops. *)
Fixpoint rr_loop (fuel : nat) (rainy : bool) (s : sel) : option sel :=
  if rr_guard s then
    match fuel with
    | O => None
    | S fuel' =>
        match rr_body rainy s with
        | Break s' => Some s'
        | Next s' => rr_loop fuel' rainy s'
        end
    end
  else Some s.

(** The backfill [for] loop over the remaining pool [ps]. *)
Fixpoint backfill (ps : list pool_entry) (s : sel) : sel :=
  match ps with
  | [] => s
  | p :: ps' =>
      if decide (pe_name p ∈ assigned s) then backfill ps' s
      else
        let s' := take_poi (pe_name p) s in
        if Z.of_nat (length (day_selected s')) >=? daily_limit then s'
        else backfill ps' s'
  end.

(** The selection of one day: the round-robin pass, then the backfill when
    the day is still short.  [rr_loop_stops] shows that [rr_bound] passes
    always suffice, so the default is never used. *)
Definition select_day (rainy : bool) (cursor : nat) (taken : gset string) : sel :=
  let s0 := MkSel cursor 0 [] taken in
  let s1 := default s0 (rr_loop rr_bound rainy s0) in
  if Z.of_nat (length (day_selected s1)) <? daily_limit then backfill pool s1 else s1.

(** The three slots of a day. *)
Definition morning_of (sel : list string) : string := default free_slot (sel !! 0%nat).
Definition afternoon_of (sel : list string) : string := default free_slot (sel !! 1%nat).
Definition evening_of (sel : list string) : string := default dinner_slot (sel !! 2%nat).

Variable isoformat : Z -> string.
Variable sd : Z.

(** One pass through the body of the [for] loop over the days. *)
Definition plan_day (st : planner) (day_index : nat) : planner :=
  let date := isoformat (sd + Z.of_nat day_index) in
  let s := select_day (rainy_day day_index) (p_idx st) (p_assigned st) in
  let chosen := day_selected s in
  let r := MkRow date (morning_of chosen) (afternoon_of chosen) (evening_of chosen)
             (weather_note_for_day day_index) in
  MkPlanner (idx s) (assigned s) (p_rows st ++ [r])%list (p_days st ++ [chosen])%list.

(** The [for] loop over [range(num_days)], from the empty state, where
    [num_days] is the length of the range. *)
Definition plan (num_days : nat) : planner :=
  fold_left plan_day (seq 0 num_days) (MkPlanner 0 ∅ [] []).

(** The POI that the row of day [d] shows in slot [k] (0 morning,
    1 afternoon, 2 evening), when that slot is not a placeholder. *)
Definition slot_poi (days : list (list string)) (d k : nat) : option string :=
  if (k <? 3)%nat then days !! d ≫= (fun chosen => chosen !! k) else None.

End Planner.

(** The line break that joins the lines of a report. *)
Definition nl : string := String "010" "".

(** ** The three tools *)

Section Tools.

Variable W : world.

Definition geocode_error (city : string) : string :=
  "ERROR: Could not geocode '" ++ city ++ "'.".

Definition date_error : string := "ERROR: Dates must be YYYY-MM-DD.".
Definition range_error : string := "ERROR: end_date must be same or after start_date.".

(** The line of links that closes a report. *)
Definition location_links (l : links) : string :=
  "Location links: " ++ openstreetmap l ++ " | " ++ google_maps l ++ " | "
  ++ wikipedia_search l.

(** A cell of the weather report: the value at [i], or ["N/A"]. *)
Definition cell (l : list jnum) (i : nat) : string :=
  match l !! i with
  | Some v => show_jnum W v
  | None => "N/A"
  end.

(** An optional argument that is [None] or empty is falsy. *)
Definition given (s : option string) : option string :=
  match s with
  | Some s => if nonempty s then Some s else None
  | None => None
  end.

Definition weather_agent (city : string) (start_date end_date : option string)
  : IO string :=
  call g <- geocode_city W city ;
  match g with
  | None => io_ret (geocode_error city)
  | Some g =>
      let name := g_name g in
      let start_date := default (isoformat W (today W)) (given start_date) in
      let end_date := default start_date (given end_date) in
      match parse_date W start_date, parse_date W end_date with
      | Some sd, Some ed =>
          let sd := isoformat W sd in
          let ed := isoformat W ed in
          call weather <- fetch_weather W (g_lat g) (g_lon g) sd ed ;
          if weather_is_empty weather then
            io_ret ("WARNING: No weather data for " ++ name ++ " between " ++ sd
                    ++ " and " ++ ed ++ "." ++ " Links: " ++ openstreetmap (g_links g)
                    ++ " | " ++ google_maps (g_links g))
          else
            let times := default [] (w_time weather) in
            let tmax := default [] (w_tmax weather) in
            let tmin := default [] (w_tmin weather) in
            let prec := default [] (w_precip weather) in
            let lines :=
              app ["Weather for " ++ name ++ " (" ++ sd ++ " to " ++ ed ++ "):"]
                (app (imap (fun i d =>
                        "- " ++ d ++ ": max " ++ cell tmax i ++ "°C, min " ++ cell tmin i
                        ++ "°C, precipitation " ++ cell prec i ++ " mm") times)
                     [""; location_links (g_links g)]) in
            io_ret (join nl lines)
      | _, _ => io_ret date_error
      end
  end.

Definition show_dist (d : option pyfloat) : string :=
  match d with
  | Some x => show_float W x
  | None => "None"
  end.

Definition poi_agent (city : string) (radius limit : Z) : IO string :=
  call g <- geocode_city W city ;
  match g with
  | None => io_ret (geocode_error city)
  | Some g =>
      call pois <- fetch_pois W (g_lat g) (g_lon g) radius limit ;
      match pois with
      | [] => io_ret ("WARNING: No POIs found for " ++ g_name g ++ ".")
      | _ :: _ =>
          let lines :=
            app ["Top " ++ pretty (length pois) ++ " POIs near " ++ g_name g ++ ":"]
              (app (imap (fun i p =>
                      pretty (S i) ++ ". " ++ poi_name p ++ " — kinds: " ++ poi_kinds p
                      ++ " — dist: " ++ show_dist (poi_dist p)) pois)
                   [""; location_links (g_links g)]) in
          io_ret (join nl lines)
      end
  end.

(** A line of the itinerary table, for day number [i]. *)
Definition table_line (i : nat) (r : row) : string :=
  "| " ++ pretty i ++ " | " ++ r_morning r ++ " | " ++ r_afternoon r ++ " | "
  ++ r_evening r ++ " | " ++ r_notes r ++ " |".

(** The lines that [enumerate(rows, start=1)] appends. *)
Definition table_lines (rows : list row) : list string :=
  imap (fun i r => table_line (S i) r) rows.

(** The lines of the document before the table. *)
Definition itinerary_head (g : place_info) (sd ed : Z) : list string :=
  app ["# Itinerary for " ++ g_name g;
       "Dates: " ++ isoformat W sd ++ " to " ++ isoformat W ed;
       ""]
    (app (if nonempty (g_category g) then ["**Place type:** " ++ g_category g] else [])
       ["**Links:** " ++ openstreetmap (g_links g) ++ " | " ++ google_maps (g_links g)
        ++ " | " ++ wikipedia_search (g_links g);
        "";
        "## Travel Itinerary";
        "";
        "| Day | Morning | Afternoon | Evening | Notes |";
        "|---:|---|---|---|---|"]).

(** The text listing the pool. *)
Definition poi_lines (pool_pois : list poi) : string :=
  match pool_pois with
  | [] => "No POIs found."
  | _ :: _ =>
      join nl
        (List.map (fun p => "- " ++ poi_name p ++ " (" ++ poi_kinds p ++ ")") pool_pois)
  end.

(** The rows planned from the fetched pool and forecast. *)
Definition itinerary_plan (pool_pois : list poi) (w : weather) (sd ed daily_limit : Z)
  : planner :=
  plan (make_pool pool_pois)
    (default [] (w_precip w)) (default [] (w_tmax w)) (default [] (w_tmin w))
    daily_limit (isoformat W) sd (Z.to_nat (ed - sd + 1)).

Definition itinerary_agent (city start_date end_date : string) (daily_limit : Z)
  : IO string :=
  call g <- geocode_city W city ;
  match g with
  | None => io_ret (geocode_error city)
  | Some g =>
      match parse_date W start_date, parse_date W end_date with
      | Some sd, Some ed =>
          if ed <? sd then io_ret range_error
          else
            let num_days := ed - sd + 1 in
            call pool_pois <- fetch_pois W (g_lat g) (g_lon g) 3500
                                (Z.max 20 (daily_limit * num_days * 2)) ;
            call weather <- fetch_weather W (g_lat g) (g_lon g)
                              (isoformat W sd) (isoformat W ed) ;
            let rows := p_rows (itinerary_plan pool_pois weather sd ed daily_limit) in
            let md :=
              app (itinerary_head g sd ed)
                (app (table_lines rows)
                   [""; "## POIs considered"; poi_lines pool_pois]) in
            io_ret (join nl md)
      | _, _ => io_ret date_error
      end
  end.

End Tools.

(** ** A small world to run the definitions in *)

Module Demo.

Definition museum : poi := MkPoi "City Museum" "museums,cultural" None.
Definition fort : poi := MkPoi "Old Fort" "historic,fortifications" None.
Definition beach : poi := MkPoi "Long Beach" "beaches,natural" None.
Definition gallery : poi := MkPoi "Art Gallery" "gallery" None.
Definition market : poi := MkPoi "Night Market" "marketplace" None.
Definition garden : poi := MkPoi "Rose Garden" "park" None.

Definition el (name kind : string) : element :=
  MkElement {[ "name" := name; "tourism" := kind ]}.

(** A world without an OpenTripMap key: Nominatim knows Goa, Overpass
    answers with six named places, the forecast is empty. *)
Definition world0 : world :=
  MkWorld false
    (fun _ => None)
    (fun q _ =>
       if contains "Goa" q
       then Some [MkNomItem (Some "Goa, India") (Some (Fin 15)) (Some (Fin 74)) "boundary" "administrative"]
       else None)
    (fun _ _ _ _ => [])
    (fun _ _ _ _ =>
       Some [el "Fort Aguada" "attraction"; el "Goa State Museum" "museum";
             el "fort aguada " "attraction"; el "Anjuna Beach" "beach";
             el "Kala Academy" "gallery"; el "Municipal Garden" "park";
             el "Mapusa Market" "marketplace"])
    (fun _ _ _ _ => None)
    (fun s => if String.eqb s "2024-01-10" then Some 738895
              else if String.eqb s "2024-01-12" then Some 738897 else None)
    (fun d => pretty d)
    738895
    (fun _ => "0.0")
    (fun _ => "0.0")
    (fun s => s).

(** The place that [world0] resolves Goa to. *)
Definition goa : place_info :=
  MkPlace (Fin 15) (Fin 74) "Goa, India" "boundary" "administrative" "other"
    (_make_links_for_coords world0 (Fin 15) (Fin 74) "Goa, India").

(** A pool of six, two of them indoor. *)
Definition pool6 : list pool_entry :=
  make_pool [museum; fort; beach; gallery; market; garden].

End Demo.


(** ** Definitions that follow the specification's words *)

(** The derivation as the specification words it: ordered substring
    tests on the combined classification text alone. *)
Definition spec_category (classification : string) : string :=
  if contains "beach" classification then "beach"
  else if existsb (fun x => contains x classification)
            ["peak"; "mountain"; "hill"; "ridge"; "valley"; "mountain_range"]
  then "mountain/hill"
  else if existsb (fun x => contains x classification)
            ["city"; "town"; "village"; "county"]
  then "city"
  else if existsb (fun x => contains x classification) ["water"; "river"]
  then "water"
  else "other".

(** The key that identifies a POI: its name, trimmed and lowered. *)
Definition poi_key (p : poi) : string := name_key (poi_name p).

(** The POI made of an Overpass element, when the element has a name. *)
Definition named_poi (e : element) : option poi :=
  let name := default "" (el_tags e !! "name") in
  let kinds := overpass_kinds (el_tags e) in
  if nonempty name
  then Some (MkPoi name (if nonempty kinds then kinds else "unknown") None)
  else None.

(** Deduplication as the specification words it: an element stays, and
    whatever follows it under the same key goes. *)
Fixpoint keep_first {A} (key : A -> string) (l : list A) : list A :=
  match l with
  | [] => []
  | x :: l' =>
      x :: List.filter (fun y => negb (String.eqb (key y) (key x))) (keep_first key l')
  end.

(** The place of a kinds text in the priority table: the index of the
    first entry it contains, the length of the table when it contains
    none. *)
Fixpoint first_match (ks : list string) (kinds : string) : nat :=
  match ks with
  | [] => 0
  | k :: ks' => if contains k kinds then 0 else S (first_match ks' kinds)
  end.

Definition spec_rank (p : poi) : Z :=
  Z.of_nat (first_match priority (lower (poi_kinds p))).

(** The candidates of the fallback path as the specification words them:
    the named elements, deduplicated by key in first-seen order, cut to
    the number requested. *)
Definition spec_candidates (requested : Z) (el : list element) : list poi :=
  firstn (Z.to_nat requested) (keep_first poi_key (omap named_poi el)).

(** Every slot of the row [r] shows the name of an indoor entry of the
    pool. *)
Definition all_slots_indoor (pool : list pool_entry) (r : row) : Prop :=
  forall text, text ∈ [r_morning r; r_afternoon r; r_evening r] ->
    exists p, p ∈ pool /\ pe_name p = text /\ pe_is_indoor p = true.

(** The temperature note as the specification words it: a function of
    the day's maximum alone. *)
Definition spec_temp_note (mx : pyfloat) : list string :=
  if fge mx 30 then ["Hot during day"]
  else if fle mx 15 then ["Cool day — bring a jacket"]
  else [].

(** The row of day [i] when [chosen] is its selection. *)
Definition row_of (precip tmax tmin : list jnum) (isoformat : Z -> string) (sd : Z)
    (i : nat) (chosen : list string) : row :=
  MkRow (isoformat (sd + Z.of_nat i)) (morning_of chosen) (afternoon_of chosen)
    (evening_of chosen) (weather_note_for_day precip tmax tmin i).

(** What holds of the inner loops' variables throughout a day that
    started with the names [taken] assigned. *)
Record sel_ok (pool : list pool_entry) (daily_limit : Z) (taken : gset string)
    (s : sel) : Prop := MkSelOk {
  ok_nodup : NoDup (day_selected s);
  ok_fresh : forall n, n ∈ day_selected s -> n ∉ taken;
  ok_assigned : assigned s = taken ∪ list_to_set (day_selected s);
  ok_pool : forall n, n ∈ day_selected s -> exists p, p ∈ pool /\ pe_name p = n;
  ok_len : Z.of_nat (length (day_selected s)) <= Z.max 0 daily_limit
}.

(** An indoor entry whose name is not among [taken]. *)
Definition indoor_free (taken : gset string) (p : pool_entry) : bool :=
  (pe_is_indoor p && bool_decide (pe_name p ∉ taken))%bool.

(** What holds after [t] passes of the round-robin loop of a rainy day
    entered with the cursor at [cursor]: only indoor entries were taken, and
    every indoor entry that was free and that the cursor has passed was
    taken. *)
Record rainy_window (pool : list pool_entry) (daily_limit : Z) (taken : gset string)
    (cursor t : nat) (s : sel) : Prop := MkWindow {
  rw_ok : sel_ok pool daily_limit taken s;
  rw_idx : idx s = (cursor + t)%nat;
  rw_attempts : attempts s = t;
  rw_indoor : forall n, n ∈ day_selected s ->
                exists p, p ∈ pool /\ pe_name p = n /\ pe_is_indoor p = true;
  rw_passed : forall j p, (j < t)%nat ->
                pool !! ((cursor + j) mod length pool)%nat = Some p ->
                indoor_free taken p = true -> pe_name p ∈ day_selected s
}.

(** What holds of the outer loop's variables after [n] days. *)
Record plan_ok (pool : list pool_entry) (precip tmax tmin : list jnum)
    (daily_limit : Z) (isoformat : Z -> string) (sd : Z) (n : nat)
    (st : planner) : Prop := MkPlanOk {
  pk_days : length (p_days st) = n;
  pk_rows : p_rows st = imap (row_of precip tmax tmin isoformat sd) (p_days st);
  pk_nodup : NoDup (concat (p_days st));
  pk_assigned : p_assigned st = list_to_set (concat (p_days st));
  pk_each : Forall (fun chosen =>
               Z.of_nat (length chosen) <= Z.max 0 daily_limit
               /\ forall n, n ∈ chosen -> exists p, p ∈ pool /\ pe_name p = n)
              (p_days st)
}.

(** A request that needs the OpenTripMap key. *)
Definition is_otm (e : event) : bool :=
  match e with
  | OtmGeoname _ | OtmRadius _ _ _ _ | OtmXid _ => true
  | _ => false
  end.

(** The detail requests of [fetch_pois_opentripmap] for an answer: one for
    every feature whose [xid] is a non-empty text, in the order of the
    features. *)
Definition detail_requests (features : list otm_feature) : list event :=
  omap (fun p => match ft_xid p with
                 | Some xid => if nonempty xid then Some (OtmXid xid) else None
                 | None => None
                 end) features.

(** A request to Nominatim. *)
Definition is_nominatim (e : event) : bool :=
  match e with
  | NominatimSearch _ _ => true
  | _ => false
  end.

(** A request to Overpass. *)
Definition is_overpass (e : event) : bool :=
  match e with
  | OverpassQuery _ _ _ _ => true
  | _ => false
  end.

(** A request to Open-Meteo. *)
Definition is_forecast (e : event) : bool :=
  match e with
  | OpenMeteo _ _ _ _ => true
  | _ => false
  end.

(** The country hint is tried for a name without a comma and of at most
    three words. *)
Definition hint_applies (place : string) : bool :=
  (negb (contains "," place) && (count_words place <=? 3)%nat)%bool.

(** ** A second small world, with an OpenTripMap key *)

Module Demo2.

(** OpenTripMap knows Goa and answers the radius search with five
    features, one of them twice up to case and blanks and one without a
    name; three have an [xid], one has an empty one and one has none.
    Nominatim and Overpass are down. *)
Definition world1 : world :=
  MkWorld true
    (fun place =>
       if String.eqb place "Goa"
       then Some (MkOtmGeo (Fin 15) (Fin 74) (Some "Goa") "")
       else None)
    (fun _ _ => None)
    (fun _ _ _ _ =>
       [MkFeature (MkPoi "Fort Aguada" "fortifications" (Some (Fin 120))) (Some "N100");
        MkFeature (MkPoi "  " "unnamed" None) None;
        MkFeature (MkPoi "Goa State Museum" "museums" (Some (Fin 300))) (Some "W200");
        MkFeature (MkPoi " fort aguada" "historic" (Some (Fin 125))) (Some "");
        MkFeature (MkPoi "Kala Academy" "theatres" None) (Some "N300")])
    (fun _ _ _ _ => None)
    (fun _ _ _ _ => None)
    (fun s => if String.eqb s "2024-01-10" then Some 738895
              else if String.eqb s "2024-01-12" then Some 738897 else None)
    (fun d => pretty d)
    738895
    (fun _ => "0.0")
    (fun _ => "0.0")
    (fun s => s).

(** The place that [world1] resolves Goa to. *)
Definition goa : place_info :=
  MkPlace (Fin 15) (Fin 74) "Goa" "" "" "place"
    (_make_links_for_coords world1 (Fin 15) (Fin 74) "Goa").

End Demo2.

(** * Properties *)

Example lower_mixed : lower "Natural:PEAK" = "natural:peak".
Proof. reflexivity. Qed.

Example strip_both : strip "  Goa , India  " = "Goa , India".
Proof. reflexivity. Qed.

Example demo_run :
  exists out log, itinerary_agent Demo.world0 "Goa" "2024-01-10" "2024-01-12" 2 = (out, log)
    /\ out <> "".
Proof. vm_compute. eexists _, _. split; [reflexivity|discriminate]. Qed.

(** ** Strings *)

Lemma startswith_lower p s :
  startswith p s = true -> startswith (lower p) (lower s) = true.
Proof.
  revert s. induction p as [|a p IH]; intros [|b s]; simpl; try done.
  intros [Hab Hps]%andb_prop. apply Ascii.eqb_eq in Hab as ->.
  rewrite Ascii.eqb_refl. simpl. by apply IH.
Qed.

Lemma contains_lower n s :
  contains n s = true -> contains (lower n) (lower s) = true.
Proof.
  induction s as [|b s IH]; simpl.
  - rewrite orb_false_r. intros H. apply (startswith_lower n "") in H.
    simpl in H. by rewrite H.
  - intros [H|H]%orb_prop.
    + apply (startswith_lower n (String b s)) in H. simpl in H. by rewrite H.
    + rewrite (IH H). apply orb_true_r.
Qed.

Lemma contains_app_r n a s :
  contains n s = true -> contains n (a ++ s) = true.
Proof.
  intros H. induction a as [|c a IH]; simpl; [done|].
  rewrite IH. apply orb_true_r.
Qed.

Lemma lower_app a b : lower (a ++ b) = lower a ++ lower b.
Proof. induction a as [|c a IH]; simpl; [done|]. by rewrite IH. Qed.


Lemma lstrip_all_space s : all_space s = true -> lstrip s = "".
Proof.
  induction s as [|c s IH]; simpl; [done|].
  intros [Hc Hs]%andb_prop. rewrite Hc. by apply IH.
Qed.

Lemma strip_all_space s : all_space s = true -> strip s = "".
Proof. intros H. unfold strip. by rewrite lstrip_all_space. Qed.

Lemma rstrip_empty s : rstrip s = "" -> all_space s = true.
Proof.
  induction s as [|c s IH]; simpl; [done|].
  destruct (rstrip s) eqn:E; [|done].
  destruct (is_space c); [|done]. intros _. by apply IH.
Qed.

Lemma lstrip_empty s : lstrip s = "" -> all_space s = true.
Proof.
  induction s as [|c s IH]; simpl; [done|].
  destruct (is_space c); [|done]. apply IH.
Qed.

(** ** The category of a geocoded place *)


(** The second test of the first branch, on the type alone, never decides:
    a type that holds "beach" makes the lowered class:type text hold it. *)
Lemma beach_in_type_redundant fclass ftype :
  contains "beach" ftype = true ->
  contains "beach" (lower (fclass ++ ":" ++ ftype)) = true.
Proof.
  intros H. rewrite !lower_app. do 2 apply contains_app_r.
  by apply (contains_lower "beach").
Qed.

(** Every place that one Nominatim attempt returns carries the category
    of its own class and type. *)
Lemma geocode_nominatim_once_category W place ua g :
  fst (geocode_nominatim_once W place ua) = Some g ->
  g_category g = category_of (g_class g) (g_type g).
Proof.
  unfold geocode_nominatim_once, request, io_bind, io_ret. cbn [fst].
  destruct (nominatim_search W place ua) as [[|first items]|]; try done.
  cbv zeta. generalize (default first (prefer_token (lower (strip (before_comma place)))
                                         (first :: items))).
  intros chosen. destruct (ni_lat chosen), (ni_lon chosen); try done.
  by intros [= <-].
Qed.

(** C7: the category is the first match, in the order beach, mountain/hill,
    city, water, of substring tests on the lowered "class:type" text, and
    "other" without a match; class natural with type peak is mountain/hill
    and with type beach is beach. *)
Theorem category_ordered_match :
  (forall fclass ftype,
     category_of fclass ftype = spec_category (lower (fclass ++ ":" ++ ftype)))
  /\ category_of "natural" "peak" = "mountain/hill"
  /\ category_of "natural" "beach" = "beach".
Proof.
  split; [|by split].
  intros fclass ftype. unfold category_of, spec_category.
  set (ct := lower (fclass ++ ":" ++ ftype)).
  destruct (contains "beach" ct) eqn:Hb; simpl.
  - done.
  - destruct (contains "beach" ftype) eqn:Hf.
    + apply (beach_in_type_redundant fclass) in Hf. fold ct in Hf. congruence.
    + simpl. by rewrite !orb_false_r, !orb_assoc.
Qed.

(** ** Blank place names *)


(** A place name with a visible character always reaches a provider or
    the key check: the early return is taken for blank names only. *)
Lemma geocode_city_early_return_iff place :
  strip place = "" <-> all_space place = true.
Proof.
  split; [|apply strip_all_space].
  unfold strip. intros H%rstrip_empty.
  induction place as [|c s IH]; simpl in *; [done|].
  destruct (is_space c) eqn:Hc; simpl; [by apply IH|].
  simpl in H. by rewrite Hc in H.
Qed.



(** ** The round-robin loop stops *)

Section Selection.

Variable pool : list pool_entry.
Variable daily_limit : Z.

Local Abbreviation rr_body := (rr_body pool).
Local Abbreviation rr_loop := (rr_loop pool daily_limit).
Local Abbreviation rr_bound := (rr_bound pool).
Local Abbreviation rr_guard := (rr_guard pool daily_limit).
Local Abbreviation backfill := (backfill daily_limit).
Local Abbreviation select_day := (select_day pool daily_limit).

Lemma rr_body_attempts rainy s : attempts (after (rr_body rainy s)) = S (attempts s).
Proof. unfold rr_body. repeat case_match; done. Qed.

Lemma rr_body_idx rainy s : idx (after (rr_body rainy s)) = S (idx s).
Proof. unfold rr_body. repeat case_match; done. Qed.

Lemma rr_bound_pos : (2 <= rr_bound)%nat.
Proof. unfold rr_bound. lia. Qed.

(** With fuel for the passes that remain below the bound, the loop stops,
    and it has made at most that many passes. *)
Lemma rr_loop_stops fuel rainy s :
  (rr_bound - attempts s <= fuel)%nat ->
  exists final,
    rr_loop fuel rainy s = Some final
    /\ (attempts s <= attempts final)%nat
    /\ (attempts final <= Nat.max (attempts s) rr_bound)%nat.
Proof.
  revert s. induction fuel as [|fuel IH]; intros s Hfuel; simpl.
  - destruct (rr_guard s) eqn:Hg.
    + apply andb_prop in Hg as [_ Hlt]. apply Nat.ltb_lt in Hlt. lia.
    + exists s. split; [done|lia].
  - destruct (rr_guard s) eqn:Hg; [|exists s; split; [done|lia]].
    apply andb_prop in Hg as [_ Hlt]. apply Nat.ltb_lt in Hlt.
    pose proof (rr_body_attempts rainy s) as Hatt.
    destruct (rr_body rainy s) as [s'|s']; simpl in Hatt.
    + destruct (IH s') as (final & Hrun & Hlo & Hhi); [lia|].
      exists final. split; [done|lia].
    + exists s'. split; [done|lia].
Qed.

(** More fuel than needed changes nothing. *)
Lemma rr_loop_fuel_mono fuel fuel' rainy s final :
  rr_loop fuel rainy s = Some final -> (fuel <= fuel')%nat ->
  rr_loop fuel' rainy s = Some final.
Proof.
  revert fuel' s. induction fuel as [|fuel IH]; intros fuel' s; simpl.
  - destruct fuel'; simpl; destruct (rr_guard s); try done.
  - destruct fuel' as [|fuel']; [lia|]. simpl.
    destruct (rr_guard s); [|done].
    destruct (rr_body rainy s); [|done].
    intros H Hle. apply IH; [done|lia].
Qed.

(** The loop makes exactly as many passes as its counter grows by: that
    much fuel is enough. *)
Lemma rr_loop_exact fuel rainy s final :
  rr_loop fuel rainy s = Some final ->
  rr_loop (attempts final - attempts s) rainy s = Some final
  /\ (attempts s <= attempts final)%nat.
Proof.
  revert s. induction fuel as [|fuel IH]; intros s; simpl.
  - destruct (rr_guard s) eqn:Hg; [done|]. intros [= <-].
    rewrite Nat.sub_diag. simpl. by rewrite Hg.
  - destruct (rr_guard s) eqn:Hg.
    + pose proof (rr_body_attempts rainy s) as Hatt.
      destruct (rr_body rainy s) as [s'|s'] eqn:Hb; simpl in Hatt.
      * intros [Hrun Hle]%IH. split; [|lia].
        replace (attempts final - attempts s)%nat
          with (S (attempts final - attempts s'))%nat by lia.
        simpl. by rewrite Hg, Hb.
      * intros [= <-]. split; [|lia].
        replace (attempts s' - attempts s)%nat with 1%nat by lia.
        simpl. by rewrite Hg, Hb.
    + intros [= <-]. rewrite Nat.sub_diag. simpl. rewrite Hg. split; [done|lia].
Qed.

(** Fewer passes than the counter shows are not enough. *)
Lemma rr_loop_short fuel rainy s final :
  rr_loop (attempts final - attempts s) rainy s = Some final ->
  (fuel < attempts final - attempts s)%nat ->
  rr_loop fuel rainy s = None.
Proof.
  revert s. induction fuel as [|fuel IH]; intros s Hrun Hlt.
  - destruct (attempts final - attempts s)%nat as [|n] eqn:E; [lia|].
    simpl in *. destruct (rr_guard s); [done|].
    injection Hrun as <-. lia.
  - destruct (attempts final - attempts s)%nat as [|n] eqn:E; [lia|].
    simpl in *. destruct (rr_guard s); [|injection Hrun as <-; lia].
    pose proof (rr_body_attempts rainy s) as Hatt.
    destruct (rr_body rainy s) as [s'|s'] eqn:Hb; simpl in Hatt.
    + apply IH; [|].
      * pose proof (rr_loop_exact _ _ _ _ Hrun) as [H _]. done.
      * pose proof (rr_loop_exact _ _ _ _ Hrun) as [_ H]. lia.
    + injection Hrun as <-. lia.
Qed.

(** C6: from the start of any day (counter at zero), whatever the pool,
    the cursor, the set of assigned names and the rain flag, the round-robin
    loop stops: it runs exactly [attempts final] passes, no fewer, and that
    number is at most twice [max(1, len(pool))]. *)
Theorem round_robin_bounded rainy cursor taken :
  exists final,
    rr_loop rr_bound rainy (MkSel cursor 0 [] taken) = Some final
    /\ rr_loop (attempts final) rainy (MkSel cursor 0 [] taken) = Some final
    /\ (forall fuel, (fuel < attempts final)%nat ->
          rr_loop fuel rainy (MkSel cursor 0 [] taken) = None)
    /\ (attempts final <= 2 * Nat.max 1 (length pool))%nat.
Proof.
  destruct (rr_loop_stops rr_bound rainy (MkSel cursor 0 [] taken))
    as (final & Hrun & _ & Hhi); [simpl; lia|].
  exists final. simpl in Hhi.
  pose proof (rr_loop_exact _ _ _ _ Hrun) as [Hex _]. simpl in Hex.
  rewrite Nat.sub_0_r in Hex.
  repeat split; [done|done| |unfold rr_bound in Hhi; lia].
  intros fuel Hlt. eapply rr_loop_short; simpl; rewrite ?Nat.sub_0_r; done.
Qed.

End Selection.

(** ** What a day's selection preserves *)

Section Invariants.

Variable pool : list pool_entry.
Variables precip tmax tmin : list jnum.
Variable daily_limit : Z.
Variable isoformat : Z -> string.
Variable sd : Z.

Local Abbreviation rr_body := (rr_body pool).
Local Abbreviation rr_loop := (rr_loop pool daily_limit).
Local Abbreviation rr_bound := (rr_bound pool).
Local Abbreviation rr_guard := (rr_guard pool daily_limit).
Local Abbreviation backfill := (backfill daily_limit).
Local Abbreviation select_day := (select_day pool daily_limit).
Local Abbreviation sel_ok := (sel_ok pool daily_limit).
Local Abbreviation plan_day := (plan_day pool precip tmax tmin daily_limit isoformat sd).
Local Abbreviation plan := (plan pool precip tmax tmin daily_limit isoformat sd).
Local Abbreviation plan_ok := (plan_ok pool precip tmax tmin daily_limit isoformat sd).

Lemma sel_ok_bump taken s :
  sel_ok taken s ->
  sel_ok taken (MkSel (S (idx s)) (S (attempts s)) (day_selected s) (assigned s)).
Proof. intros []. by constructor. Qed.

Lemma sel_ok_take taken s p :
  sel_ok taken s -> p ∈ pool -> pe_name p ∉ assigned s ->
  Z.of_nat (length (day_selected s)) < daily_limit ->
  sel_ok taken (take_poi (pe_name p) s).
Proof.
  intros [Hnd Hfr Has Hpl Hlen] Hp Hnew Hlt.
  rewrite Has in Hnew. apply not_elem_of_union in Hnew as [Hn1 Hn2].
  rewrite elem_of_list_to_set in Hn2.
  constructor; simpl.
  - apply NoDup_app. split_and!; [done| |apply NoDup_singleton].
    intros x Hx ->%list_elem_of_singleton. done.
  - intros n [Hn| ->%list_elem_of_singleton]%elem_of_app; [by apply Hfr|done].
  - rewrite Has, list_to_set_app_L. simpl.
    by rewrite (right_id_L ∅ (∪)), (assoc_L (∪)).
  - intros n [Hn| ->%list_elem_of_singleton]%elem_of_app; [by apply Hpl|eauto].
  - rewrite length_app. simpl. lia.
Qed.

Lemma rr_body_ok taken rainy s :
  sel_ok taken s -> rr_guard s = true -> sel_ok taken (after (rr_body rainy s)).
Proof.
  intros Hok [Hlt _]%andb_prop. apply Z.ltb_lt in Hlt.
  unfold rr_body.
  set (cur := match pool with [] => None | _ :: _ => _ end).
  assert (forall p, cur = Some p -> p ∈ pool) as Hcur.
  { subst cur. destruct pool; [done|]. intros x. apply list_elem_of_lookup_2. }
  destruct cur as [p|]; simpl; [|by apply sel_ok_bump].
  specialize (Hcur p eq_refl).
  repeat case_match; simpl; try by apply sel_ok_bump.
  apply (sel_ok_take taken (MkSel _ _ _ _)); [by apply sel_ok_bump|done..].
Qed.

Lemma rr_loop_ok taken fuel rainy s final :
  sel_ok taken s -> rr_loop fuel rainy s = Some final -> sel_ok taken final.
Proof.
  revert s. induction fuel as [|fuel IH]; intros s Hok; simpl.
  - destruct (rr_guard s); [done|]. by intros [= <-].
  - destruct (rr_guard s) eqn:Hg; [|by intros [= <-]].
    pose proof (rr_body_ok taken rainy s Hok Hg) as Hok'.
    destruct (rr_body rainy s) as [s'|s']; simpl in Hok'.
    + by apply IH.
    + by intros [= <-].
Qed.

Lemma backfill_ok taken ps s :
  sel_ok taken s -> (forall p, p ∈ ps -> p ∈ pool) ->
  Z.of_nat (length (day_selected s)) < daily_limit ->
  sel_ok taken (backfill ps s).
Proof.
  revert s. induction ps as [|p ps IH]; intros s Hok Hsub Hlt; simpl; [done|].
  destruct (decide (pe_name p ∈ assigned s)) as [Hin|Hnew].
  - apply IH; [done| |done]. intros q Hq. apply Hsub. by right.
  - assert (sel_ok taken (take_poi (pe_name p) s)) as Hok'.
    { apply sel_ok_take; [done| |done..]. apply Hsub. by left. }
    destruct (_ >=? _) eqn:Hfull; [done|].
    apply IH; [done| |].
    + intros q Hq. apply Hsub. by right.
    + rewrite Z.geb_leb in Hfull. apply Z.leb_gt in Hfull. done.
Qed.

Lemma sel_ok_start taken cursor : sel_ok taken (MkSel cursor 0 [] taken).
Proof.
  constructor; simpl.
  - constructor.
  - intros n Hn. by apply elem_of_nil in Hn.
  - by rewrite (right_id_L ∅ (∪)).
  - intros n Hn. by apply elem_of_nil in Hn.
  - lia.
Qed.

(** The round-robin pass of [select_day] never falls back on its
    default. *)
Lemma round_robin_result rainy cursor taken :
  exists s1, rr_loop rr_bound rainy (MkSel cursor 0 [] taken) = Some s1
    /\ sel_ok taken s1.
Proof.
  destruct (rr_loop_stops pool daily_limit rr_bound rainy (MkSel cursor 0 [] taken))
    as (s1 & Hrun & _); [simpl; lia|].
  exists s1. split; [done|].
  eapply rr_loop_ok; [apply sel_ok_start|done].
Qed.

Lemma select_day_ok rainy cursor taken :
  sel_ok taken (select_day rainy cursor taken).
Proof.
  unfold select_day.
  destruct (round_robin_result rainy cursor taken) as (s1 & -> & Hok). simpl.
  destruct (_ <? _) eqn:Hlt; [|done].
  apply backfill_ok; [done..|]. by apply Z.ltb_lt.
Qed.

(** *** The loop over the days *)

Lemma plan_S n : plan (S n) = plan_day (plan n) n.
Proof. unfold plan. by rewrite seq_S, fold_left_app. Qed.

Lemma plan_day_days st i :
  p_days (plan_day st i)
  = (p_days st ++ [day_selected (select_day (rainy_day precip i) (p_idx st) (p_assigned st))])%list.
Proof. done. Qed.

Lemma plan_ok_all n : plan_ok n (plan n).
Proof.
  induction n as [|n IH].
  - constructor; simpl; try done. constructor.
  - rewrite plan_S. destruct IH as [Hd Hr Hnd Has Hea].
    pose proof (select_day_ok (rainy_day precip n) (p_idx (plan n)) (p_assigned (plan n)))
      as [Snd Sfr Sas Spl Slen].
    constructor; simpl.
    + rewrite length_app. simpl. lia.
    + rewrite Hr, imap_app. simpl. by rewrite Hd, Nat.add_0_r.
    + rewrite concat_app. simpl. rewrite app_nil_r.
      apply NoDup_app. split_and!; [done| |done].
      intros x Hx Hx'. apply Sfr in Hx'. apply Hx'.
      rewrite Has. by apply elem_of_list_to_set.
    + rewrite Sas, Has, concat_app. simpl.
      by rewrite app_nil_r, list_to_set_app_L.
    + apply Forall_app. split; [done|]. by repeat constructor.
Qed.

(** The days already planned are not touched by the later ones. *)
Lemma plan_days_prefix n m :
  (n <= m)%nat -> take n (p_days (plan m)) = p_days (plan n).
Proof.
  induction 1 as [|m Hle IH].
  - rewrite firstn_all2; [done|]. by rewrite (pk_days _ _ _ _ _ _ _ _ _ (plan_ok_all n)).
  - rewrite plan_S, plan_day_days, take_app_le; [done|].
    rewrite (pk_days _ _ _ _ _ _ _ _ _ (plan_ok_all m)). done.
Qed.

(** The selection of day [i] is what [select_day] makes of the state the
    earlier days left. *)
Lemma plan_day_lookup n i :
  (i < n)%nat ->
  p_days (plan n) !! i
  = Some (day_selected
            (select_day (rainy_day precip i) (p_idx (plan i)) (p_assigned (plan i)))).
Proof.
  intros Hlt.
  rewrite <- (lookup_take_lt _ (S i)) by lia.
  rewrite plan_days_prefix by lia.
  rewrite plan_S, plan_day_days, lookup_app_r;
    rewrite (pk_days _ _ _ _ _ _ _ _ _ (plan_ok_all i)); [|done].
  by rewrite Nat.sub_diag.
Qed.

Lemma plan_rows_lookup n i chosen :
  p_days (plan n) !! i = Some chosen ->
  p_rows (plan n) !! i = Some (row_of precip tmax tmin isoformat sd i chosen).
Proof.
  intros H. rewrite (pk_rows _ _ _ _ _ _ _ _ _ (plan_ok_all n)).
  rewrite list_lookup_imap, H. done.
Qed.

Lemma plan_rows_length n : length (p_rows (plan n)) = n.
Proof.
  rewrite (pk_rows _ _ _ _ _ _ _ _ _ (plan_ok_all n)), length_imap.
  apply (pk_days _ _ _ _ _ _ _ _ _ (plan_ok_all n)).
Qed.

(** The assigned set only grows from day to day. *)
Lemma plan_assigned_mono n m :
  (n <= m)%nat -> p_assigned (plan n) ⊆ p_assigned (plan m).
Proof.
  intros Hle.
  rewrite (pk_assigned _ _ _ _ _ _ _ _ _ (plan_ok_all n)).
  rewrite (pk_assigned _ _ _ _ _ _ _ _ _ (plan_ok_all m)).
  rewrite <- (plan_days_prefix n m Hle).
  intros x. rewrite !elem_of_list_to_set, !list_elem_of_In, !in_concat.
  intros (l & Hl & Hx). exists l. split; [|done].
  apply list_elem_of_In. apply list_elem_of_In in Hl.
  by apply (subseteq_take n (p_days (plan m))).
Qed.

End Invariants.

(** ** The rows of an itinerary *)

Lemma nodup_concat_lookup {A} (ls : list (list A)) d1 d2 l1 l2 k1 k2 (x : A) :
  NoDup (concat ls) ->
  ls !! d1 = Some l1 -> ls !! d2 = Some l2 ->
  l1 !! k1 = Some x -> l2 !! k2 = Some x ->
  d1 = d2 /\ k1 = k2.
Proof.
  revert d1 d2. induction ls as [|l ls IH]; intros d1 d2; [done|].
  simpl. intros (Hl & Hdis & Hls)%NoDup_app H1 H2 Hk1 Hk2.
  assert (forall d l', ls !! d = Some l' -> x ∈ l' -> x ∈ concat ls) as Hin.
  { intros d l' Hd Hx. apply list_elem_of_In, in_concat. exists l'.
    split; apply list_elem_of_In; [by eapply list_elem_of_lookup_2|done]. }
  destruct d1 as [|d1], d2 as [|d2]; simpl in *.
  - injection H1 as <-. injection H2 as <-. split; [done|].
    by apply (NoDup_lookup l k1 k2 x).
  - injection H1 as <-. exfalso. eapply Hdis.
    + by eapply list_elem_of_lookup_2.
    + eapply Hin; [done|]. by eapply list_elem_of_lookup_2.
  - injection H2 as <-. exfalso. eapply Hdis.
    + by eapply list_elem_of_lookup_2.
    + eapply Hin; [done|]. by eapply list_elem_of_lookup_2.
  - destruct (IH d1 d2) as [-> ->]; done.
Qed.

Lemma slot_poi_Some days d k n :
  slot_poi days d k = Some n <->
  (k < 3)%nat /\ exists chosen, days !! d = Some chosen /\ chosen !! k = Some n.
Proof.
  unfold slot_poi. destruct (k <? 3)%nat eqn:Hk.
  - apply Nat.ltb_lt in Hk. destruct (days !! d) as [chosen|]; simpl.
    + split; [eauto|]. by intros (_ & c & [= <-] & ?).
    + split; [done|]. by intros (_ & c & ? & ?).
  - apply Nat.ltb_ge in Hk. split; [done|]. intros [? _]. lia.
Qed.

Section Rows.

Variable pool : list pool_entry.
Variables precip tmax tmin : list jnum.
Variable daily_limit : Z.
Variable isoformat : Z -> string.
Variable sd : Z.
Variable num_days : nat.

Local Abbreviation st := (plan pool precip tmax tmin daily_limit isoformat sd num_days).

(** The three texts of a row are the POIs of its slots, or the
    placeholders. *)
Lemma row_texts d r :
  p_rows st !! d = Some r ->
  r_date r = isoformat (sd + Z.of_nat d)
  /\ r_morning r = default free_slot (slot_poi (p_days st) d 0)
  /\ r_afternoon r = default free_slot (slot_poi (p_days st) d 1)
  /\ r_evening r = default dinner_slot (slot_poi (p_days st) d 2)
  /\ r_notes r = weather_note_for_day precip tmax tmin d.
Proof.
  intros Hr.
  assert (d < length (p_days st))%nat as Hd.
  { apply lookup_lt_Some in Hr.
    by rewrite plan_rows_length in Hr;
       rewrite (pk_days _ _ _ _ _ _ _ _ _ (plan_ok_all _ _ _ _ _ _ _ _)). }
  apply lookup_lt_is_Some in Hd as [chosen Hc].
  rewrite (plan_rows_lookup _ _ _ _ _ _ _ _ _ _ Hc) in Hr. injection Hr as <-.
  unfold slot_poi. rewrite Hc. done.
Qed.

(** C2: in the plan of one request no POI name is placed twice: two slots
    (of one day or of two days) that hold the same POI name are the same
    slot.  The rows show exactly these POIs, a placeholder standing in an
    empty slot.  The selections of all days together, whether made by the
    round-robin pass or by the backfill, repeat no name. *)
Theorem assignment_globally_unique :
  (forall d r, p_rows st !! d = Some r ->
     r_morning r = default free_slot (slot_poi (p_days st) d 0)
     /\ r_afternoon r = default free_slot (slot_poi (p_days st) d 1)
     /\ r_evening r = default dinner_slot (slot_poi (p_days st) d 2))
  /\ (forall d1 k1 d2 k2 n,
        slot_poi (p_days st) d1 k1 = Some n ->
        slot_poi (p_days st) d2 k2 = Some n ->
        d1 = d2 /\ k1 = k2)
  /\ NoDup (concat (p_days st)).
Proof.
  pose proof (pk_nodup _ _ _ _ _ _ _ _ _ (plan_ok_all pool precip tmax tmin
                daily_limit isoformat sd num_days)) as Hnd.
  split_and!; [|
    |done].
  - intros d r Hr. apply row_texts in Hr. tauto.
  - intros d1 k1 d2 k2 n (_ & c1 & H1 & Hk1)%slot_poi_Some
      (_ & c2 & H2 & Hk2)%slot_poi_Some.
    by eapply (nodup_concat_lookup (p_days st)).
Qed.

(** The same on the texts of the rows: a text that is no placeholder
    stands in one slot at most. *)
Lemma slot_text_unique d1 d2 r1 r2 n :
  n <> free_slot -> n <> dinner_slot ->
  p_rows st !! d1 = Some r1 -> p_rows st !! d2 = Some r2 ->
  forall k1 k2, (k1 < 3)%nat -> (k2 < 3)%nat ->
    nth k1 [r_morning r1; r_afternoon r1; r_evening r1] "" = n ->
    nth k2 [r_morning r2; r_afternoon r2; r_evening r2] "" = n ->
    d1 = d2 /\ k1 = k2.
Proof.
  intros Hf Hd (_ & Hm1 & Ha1 & He1 & _)%row_texts (_ & Hm2 & Ha2 & He2 & _)%row_texts
    k1 k2 Hk1 Hk2 H1 H2.
  pose proof (pk_nodup _ _ _ _ _ _ _ _ _ (plan_ok_all pool precip tmax tmin
                daily_limit isoformat sd num_days)) as Hnd.
  assert (slot_poi (p_days st) d1 k1 = Some n) as S1.
  { destruct k1 as [|[|[|k1]]]; simpl in H1; [| | |lia].
    - rewrite Hm1 in H1. by destruct (slot_poi _ d1 0); simpl in H1; subst.
    - rewrite Ha1 in H1. by destruct (slot_poi _ d1 1); simpl in H1; subst.
    - rewrite He1 in H1. by destruct (slot_poi _ d1 2); simpl in H1; subst. }
  assert (slot_poi (p_days st) d2 k2 = Some n) as S2.
  { destruct k2 as [|[|[|k2]]]; simpl in H2; [| | |lia].
    - rewrite Hm2 in H2. by destruct (slot_poi _ d2 0); simpl in H2; subst.
    - rewrite Ha2 in H2. by destruct (slot_poi _ d2 1); simpl in H2; subst.
    - rewrite He2 in H2. by destruct (slot_poi _ d2 2); simpl in H2; subst. }
  apply slot_poi_Some in S1 as (_ & c1 & Hc1 & Hn1).
  apply slot_poi_Some in S2 as (_ & c2 & Hc2 & Hn2).
  by eapply (nodup_concat_lookup (p_days st)).
Qed.


End Rows.

(** ** The itinerary as a whole *)

(** The decimal numeral of a day number below ten is its one digit. *)
Lemma pretty_first_day : pretty 1%nat = "1".
Proof. reflexivity. Qed.

(** C1: for a place that geocodes and two dates that parse with the end
    not before the start, the itinerary is the head, one table line per
    row and the list of POIs; there are exactly [(ed - sd) + 1] rows; row
    [i] (from zero) carries the date [sd + i], so the dates run day by
    day from the start to the end date; and its line in the table reads
    "| i+1 | morning | afternoon | evening | notes |", the day number in
    decimal, so the first line starts with "| 1 | ". *)
Theorem itinerary_rows_cover_range W city start_date end_date daily_limit g sd ed :
  fst (geocode_city W city) = Some g ->
  parse_date W start_date = Some sd ->
  parse_date W end_date = Some ed ->
  sd <= ed ->
  let pool_pois :=
    fst (fetch_pois W (g_lat g) (g_lon g) 3500 (Z.max 20 (daily_limit * (ed - sd + 1) * 2))) in
  let weather :=
    fst (fetch_weather W (g_lat g) (g_lon g) (isoformat W sd) (isoformat W ed)) in
  let rows := p_rows (itinerary_plan W pool_pois weather sd ed daily_limit) in
  let line (i : nat) (r : row) :=
    "| " ++ pretty (i + 1)%nat ++ " | " ++ r_morning r ++ " | " ++ r_afternoon r
    ++ " | " ++ r_evening r ++ " | " ++ r_notes r ++ " |" in
  fst (itinerary_agent W city start_date end_date daily_limit)
    = join nl (itinerary_head W g sd ed ++ imap line rows
               ++ [""; "## POIs considered"; poi_lines pool_pois])%list
  /\ Z.of_nat (length rows) = ed - sd + 1
  /\ length (table_lines rows) = length rows
  /\ (forall i r, rows !! i = Some r ->
        r_date r = isoformat W (sd + Z.of_nat i)
        /\ sd + Z.of_nat i <= ed
        /\ table_lines rows !! i = Some (table_line (S i) r))
  /\ (forall i r, rows !! i = Some r ->
        table_lines rows !! i
        = Some ("| " ++ pretty (i + 1)%nat ++ " | " ++ r_morning r ++ " | "
                ++ r_afternoon r ++ " | " ++ r_evening r ++ " | " ++ r_notes r ++ " |"))
  /\ (forall r, rows !! 0%nat = Some r ->
        table_lines rows !! 0%nat
        = Some ("| 1 | " ++ r_morning r ++ " | " ++ r_afternoon r ++ " | "
                ++ r_evening r ++ " | " ++ r_notes r ++ " |")).
Proof.
  intros Hg Hsd Hed Hle pool_pois weather rows line.
  assert (Z.of_nat (length rows) = ed - sd + 1) as Hlen.
  { subst rows. unfold itinerary_plan. rewrite plan_rows_length. lia. }
  assert (forall i r, table_line (S i) r = line i r) as Hline.
  { intros i r. unfold table_line, line. by rewrite Nat.add_1_r. }
  assert (table_lines rows = imap line rows) as Hlines.
  { unfold table_lines. apply imap_ext. intros i r _. apply Hline. }
  split_and!.
  - rewrite <- Hlines.
    unfold itinerary_agent. destruct (geocode_city W city) as [g' lg].
    simpl in Hg. subst g'. unfold io_bind at 1. rewrite Hsd, Hed.
    apply Z.ltb_ge in Hle. rewrite Hle.
    subst rows pool_pois weather.
    destruct (fetch_pois _ _ _ _ _) as [pp l1].
    destruct (fetch_weather _ _ _ _ _) as [w l2]. done.
  - done.
  - unfold table_lines. by rewrite length_imap.
  - intros i r Hr. split_and!.
    + subst rows. unfold itinerary_plan in Hr. by apply row_texts in Hr as [? _].
    + apply lookup_lt_Some in Hr. lia.
    + unfold table_lines. by rewrite list_lookup_imap, Hr.
  - intros i r Hr. rewrite Hlines, list_lookup_imap, Hr. done.
  - intros r Hr. rewrite Hlines, list_lookup_imap, Hr. done.
Qed.

(** A failed forecast request leaves the empty dictionary. *)
Lemma fetch_weather_failure W lat lon s e :
  open_meteo W lat lon s e = None ->
  fst (fetch_weather W lat lon s e) = no_weather.
Proof. intros H. unfold fetch_weather, request, io_bind, io_ret. by rewrite H. Qed.



(** A day is rainy exactly when its precipitation is a number that is at
    least 2; a day beyond the forecast, or with [null], is dry. *)
Lemma rainy_day_spec precip i :
  rainy_day precip i = true <-> exists x, precip !! i = Some (JNum x) /\ fge x 2 = true.
Proof.
  unfold rainy_day. destruct (precip !! i) as [[x|]|]; simpl.
  - split; [eauto|]. by intros (y & [= <-] & ?).
  - split; [done|]. by intros (y & ? & ?).
  - split; [done|]. by intros (y & ? & ?).
Qed.

(** Without both temperatures of the day as numbers there is no
    temperature note, whatever the maximum is. *)
Lemma temp_part_needs_both tmax tmin i :
  (forall mx mn, ~ (tmax !! i = Some (JNum mx) /\ tmin !! i = Some (JNum mn))) ->
  temp_part tmax tmin i = [].
Proof.
  intros H. unfold temp_part.
  destruct (tmax !! i) as [[mx|]|], (tmin !! i) as [[mn|]|]; simpl; try done.
  by destruct (H mx mn).
Qed.

(** C8, as the code has it: on a day whose maximum and minimum
    temperature are both present as numbers, the temperature note is a
    function of the maximum alone: the hot note from 30 degrees, the cool
    note up to 15 degrees, none in between; the day's note joins the
    precipitation note and this one; on a day where either temperature is
    missing or is no number there is no temperature note, whatever the
    maximum; and on any day without a single note part the note is the
    neutral message. *)
Theorem temperature_note_by_max precip tmax tmin i mx mn :
  tmax !! i = Some (JNum mx) ->
  tmin !! i = Some (JNum mn) ->
  temp_part tmax tmin i = spec_temp_note mx
  /\ (fge mx 30 = true -> temp_part tmax tmin i = ["Hot during day"])
  /\ (fge mx 30 = false -> fle mx 15 = true ->
      temp_part tmax tmin i = ["Cool day — bring a jacket"])
  /\ (fge mx 30 = false -> fle mx 15 = false -> temp_part tmax tmin i = [])
  /\ note_parts precip tmax tmin i = (precip_part precip i ++ spec_temp_note mx)%list
  /\ weather_note_for_day precip tmax tmin i
     = match (precip_part precip i ++ spec_temp_note mx)%list with
       | [] => neutral_note
       | parts => join "; " parts
       end
  /\ (forall p t u j, note_parts p t u j = [] ->
        weather_note_for_day p t u j = neutral_note)
  /\ (forall t u j,
        (forall x y, ~ (t !! j = Some (JNum x) /\ u !! j = Some (JNum y))) ->
        temp_part t u j = []).
Proof.
  intros Hmax Hmin.
  assert (temp_part tmax tmin i = spec_temp_note mx) as Ht.
  { unfold temp_part. by rewrite Hmax, Hmin. }
  unfold weather_note_for_day, note_parts. rewrite Ht. unfold spec_temp_note.
  split_and!; try done.
  - by intros ->.
  - by intros -> ->.
  - by intros -> ->.
  - by intros p t u j ->.
  - intros t u j. apply temp_part_needs_both.
Qed.

(** C8 as it was worded fails on a day that has a maximum but no usable
    minimum: with a maximum of 35 degrees and a [null] (or absent) minimum
    the code adds no hot note, while the same maximum with a minimum of 20
    degrees gets it; so the note is not decided by the maximum alone. *)
Lemma temperature_note_counterexample :
  fge (Fin 35) 30 = true
  /\ temp_part [JNum (Fin 35)] [JNull] 0 = []
  /\ temp_part [JNum (Fin 35)] [] 0 = []
  /\ weather_note_for_day [JNum (Fin 0)] [JNum (Fin 35)] [JNull] 0
     = "Good weather for walking"
  /\ weather_note_for_day [] [JNum (Fin 35)] [] 0 = neutral_note
  /\ temp_part [JNum (Fin 35)] [JNum (Fin 20)] 0 = ["Hot during day"]
  /\ weather_note_for_day [JNum (Fin 0)] [JNum (Fin 35)] [JNum (Fin 20)] 0
     = "Good weather for walking; Hot during day".
Proof. by split_and!. Qed.

(** ** Rainy days *)

Lemma NoDup_map_filter {A B} (f : A -> B) (P : A -> bool) (l : list A) :
  NoDup (List.map f l) -> NoDup (List.map f (List.filter P l)).
Proof.
  induction l as [|a l IH]; simpl; [done|].
  intros H. inversion_clear H as [|? ? Ha Hl].
  destruct (P a); simpl; [|by apply IH].
  constructor; [|by apply IH].
  intros (b & Hb & Hin%filter_In)%list_elem_of_In%in_map_iff. apply Ha.
  rewrite <- Hb. apply list_elem_of_In, in_map. tauto.
Qed.

Lemma cursor_reaches (c L q : nat) :
  (q < L)%nat -> exists j, (j < L)%nat /\ ((c + j) mod L = q)%nat.
Proof.
  intros Hq. exists ((q + (L - c mod L)) mod L)%nat.
  assert (c mod L < L)%nat as Hc by (apply Nat.mod_upper_bound; lia).
  split; [apply Nat.mod_upper_bound; lia|].
  rewrite Nat.Div0.add_mod_idemp_r.
  rewrite <- Nat.Div0.add_mod_idemp_l.
  replace (c mod L + (q + (L - c mod L)))%nat with (q + 1 * L)%nat by lia.
  rewrite Nat.Div0.mod_add. by apply Nat.mod_small.
Qed.

Section Rainy.

Variable pool : list pool_entry.
Variable daily_limit : Z.
Variable taken : gset string.
Variable cursor : nat.

Hypothesis pool_names : NoDup (List.map pe_name pool).
Hypothesis enough :
  daily_limit <= Z.of_nat (length (List.filter (indoor_free taken) pool)).

Local Abbreviation rr_body := (rr_body pool).
Local Abbreviation rr_loop := (rr_loop pool daily_limit).
Local Abbreviation rr_bound := (rr_bound pool).
Local Abbreviation rr_guard := (rr_guard pool daily_limit).
Local Abbreviation window := (rainy_window pool daily_limit taken cursor).

Lemma window_start : window 0 (MkSel cursor 0 [] taken).
Proof.
  constructor; simpl.
  - apply sel_ok_start.
  - lia.
  - done.
  - intros n Hn. by apply elem_of_nil in Hn.
  - intros j p Hj. lia.
Qed.

Lemma window_step t s :
  window t s -> rr_guard s = true -> pool <> [] ->
  exists s', rr_body true s = Next s' /\ window (S t) s'.
Proof.
  intros [Hok Hidx Hatt Hind Hpass] Hg Hne.
  pose proof (rr_body_ok pool daily_limit taken true s Hok Hg) as Hok'.
  apply andb_prop in Hg as [Hlt _]. apply Z.ltb_lt in Hlt.
  assert (0 < length pool)%nat as Hlen by (destruct pool; [done|simpl; lia]).
  unfold rr_body in *.
  set (cur := match pool with [] => None | _ :: _ => _ end) in *.
  assert (cur = pool !! ((cursor + t) mod length pool)%nat) as Hcur.
  { subst cur. destruct pool; [done|]. rewrite Hidx. by f_equal. }
  destruct (lookup_lt_is_Some_2 pool ((cursor + t) mod length pool)%nat) as [p Hp].
  { apply Nat.mod_upper_bound. lia. }
  rewrite Hp in Hcur. rewrite Hcur in *. simpl in *.
  assert (forall s1 : sel,
    day_selected s1 = day_selected s \/
    (pe_is_indoor p = true /\ day_selected s1 = (day_selected s ++ [pe_name p])%list) ->
    (indoor_free taken p = true -> pe_name p ∈ day_selected s1) ->
    idx s1 = S (idx s) -> attempts s1 = S (attempts s) ->
    sel_ok pool daily_limit taken s1 -> window (S t) s1) as Hmk.
  { intros s1 Hsel Hp1 Hi1 Ha1 Hok1. constructor; [done|lia|lia| |].
    - intros n Hn. destruct Hsel as [E|[Hin E]]; rewrite E in Hn.
      + by apply Hind.
      + apply elem_of_app in Hn as [Hn| ->%list_elem_of_singleton]; [by apply Hind|].
        exists p. split_and!; [by eapply list_elem_of_lookup_2|done..].
    - intros j q Hj Hq Hfree.
      destruct (decide (j = t)) as [->|Hjt].
      + rewrite Hp in Hq. injection Hq as <-. by apply Hp1.
      + assert (pe_name q ∈ day_selected s) by (apply (Hpass j q); [lia|done..]).
        destruct Hsel as [E|[_ E]]; rewrite E; [done|]. apply elem_of_app. by left. }
  destruct (decide (pe_name p ∈ assigned s)) as [Hin|Hnew].
  - eexists. split; [done|]. apply Hmk; simpl; try done; [by left|].
    intros [_ Hfree%bool_decide_eq_true_1]%andb_prop.
    rewrite (ok_assigned _ _ _ _ Hok) in Hin.
    apply elem_of_union in Hin as [?|Hin]; [done|].
    by apply elem_of_list_to_set in Hin.
  - simpl in *. destruct (pe_is_indoor p) eqn:Hindoor; simpl in *.
    + eexists. split; [done|]. apply Hmk; simpl; try done; [by right|].
      intros _. apply elem_of_app. right. by left.
    + eexists. split; [done|]. apply Hmk; simpl; try done; [by left|].
      unfold indoor_free. by rewrite Hindoor.
Qed.

(** Once the cursor has gone round the pool, every free indoor entry has
    been taken, so at least as many names as there are such entries. *)
Lemma window_full s :
  window (length pool) s ->
  (length (List.filter (indoor_free taken) pool) <= length (day_selected s))%nat.
Proof.
  intros [Hok _ _ _ Hpass].
  rewrite <- (length_map pe_name).
  apply NoDup_incl_length.
  - by apply NoDup_ListNoDup, NoDup_map_filter.
  - intros n (p & <- & Hp)%in_map_iff. apply filter_In in Hp as [Hp Hfree].
    apply list_elem_of_In. apply list_elem_of_In in Hp.
    apply list_elem_of_lookup_1 in Hp as [q Hq].
    destruct (cursor_reaches cursor (length pool) q) as (j & Hj & Hjq).
    { by eapply lookup_lt_Some. }
    eapply Hpass; [done| |done]. by rewrite Hjq.
Qed.

Lemma rainy_loop_fills fuel t s :
  window t s -> (t <= length pool)%nat -> (2 * length pool <= fuel + t)%nat ->
  exists final,
    rr_loop fuel true s = Some final
    /\ daily_limit <= Z.of_nat (length (day_selected final))
    /\ sel_ok pool daily_limit taken final
    /\ (forall n, n ∈ day_selected final ->
          exists p, p ∈ pool /\ pe_name p = n /\ pe_is_indoor p = true).
Proof.
  revert t s. induction fuel as [|fuel IH]; intros t s Hw Ht Hfuel.
  - assert (rr_guard s = false) as Hg.
    { destruct (rr_guard s) eqn:Hg; [|done]. exfalso.
      apply andb_prop in Hg as [Hlt _]. apply Z.ltb_lt in Hlt.
      assert (t = length pool) as -> by lia.
      apply window_full in Hw. lia. }
    simpl. rewrite Hg. exists s.
    destruct Hw as [Hok _ Hatt Hind _]. split_and!; try done.
    apply andb_false_iff in Hg as [Hg|Hg]; [by apply Z.ltb_ge in Hg|].
    apply Nat.ltb_ge in Hg. unfold rr_bound in Hg. lia.
  - simpl. destruct (rr_guard s) eqn:Hg.
    + assert (t < length pool)%nat as Hlt.
      { destruct (decide (t = length pool)) as [->|]; [|lia]. exfalso.
        apply andb_prop in Hg as [Hlt _]. apply Z.ltb_lt in Hlt.
        apply window_full in Hw. lia. }
      destruct (window_step t s Hw Hg) as (s' & -> & Hw').
      { intros E. rewrite E in Hlt. simpl in Hlt. lia. }
      apply (IH (S t)); [done|lia|lia].
    + exists s. destruct Hw as [Hok _ Hatt Hind _]. split_and!; try done.
      apply andb_false_iff in Hg as [Hg|Hg]; [by apply Z.ltb_ge in Hg|].
      apply Nat.ltb_ge in Hg. unfold rr_bound in Hg. lia.
Qed.

(** On a rainy day with enough free indoor entries the round-robin pass
    fills the day, and the backfill is not entered. *)
Lemma select_rainy_day :
  let s := select_day pool daily_limit true cursor taken in
  Z.of_nat (length (day_selected s)) = Z.max 0 daily_limit
  /\ (forall n, n ∈ day_selected s ->
        exists p, p ∈ pool /\ pe_name p = n /\ pe_is_indoor p = true).
Proof.
  unfold select_day.
  destruct (rainy_loop_fills rr_bound 0 (MkSel cursor 0 [] taken))
    as (final & -> & Hfull & Hok & Hind).
  { apply window_start. } { lia. } { unfold rr_bound. lia. }
  simpl. apply Z.ltb_ge in Hfull. rewrite Hfull.
  split; [|done]. apply Z.ltb_ge in Hfull.
  pose proof (ok_len _ _ _ _ Hok). lia.
Qed.

End Rainy.

(** ** Sorting by a key *)

Section Sorting.

Context {A : Type}.
Variable key : A -> Z.

Lemma insert_by_perm x l : insert_by key x l ≡ₚ x :: l.
Proof.
  induction l as [|y l IH]; simpl; [done|].
  destruct (key x <=? key y); [done|].
  rewrite IH. apply Permutation_swap.
Qed.

Lemma sort_by_perm l : sort_by key l ≡ₚ l.
Proof.
  induction l as [|x l IH]; simpl; [done|].
  by rewrite insert_by_perm, IH.
Qed.

Lemma insert_by_sorted x l :
  StronglySorted (fun a b => key a <= key b) l ->
  StronglySorted (fun a b => key a <= key b) (insert_by key x l).
Proof.
  induction 1 as [|y l Hl IH Hy]; simpl.
  - repeat constructor.
  - destruct (key x <=? key y) eqn:Hxy.
    + apply Z.leb_le in Hxy. constructor; [by constructor|].
      constructor; [done|]. eapply Forall_impl; [done|]. simpl. intros z Hz. lia.
    + apply Z.leb_gt in Hxy. constructor; [done|].
      rewrite (insert_by_perm x l). constructor; [lia|done].
Qed.

Lemma sort_by_sorted l : StronglySorted (fun a b => key a <= key b) (sort_by key l).
Proof.
  induction l as [|x l IH]; simpl; [constructor|]. by apply insert_by_sorted.
Qed.

Lemma insert_by_stable k x l :
  List.filter (fun a => key a =? k) (insert_by key x l)
  = List.filter (fun a => key a =? k) (x :: l).
Proof.
  induction l as [|y l IH]; simpl; [done|].
  destruct (key x <=? key y) eqn:Hxy; simpl; [done|].
  apply Z.leb_gt in Hxy. rewrite IH. simpl.
  destruct (key x =? k) eqn:Hx, (key y =? k) eqn:Hy; try done.
  apply Z.eqb_eq in Hx, Hy. lia.
Qed.

(** Elements of equal key keep the order they came in. *)
Lemma sort_by_stable k l :
  List.filter (fun a => key a =? k) (sort_by key l) = List.filter (fun a => key a =? k) l.
Proof.
  induction l as [|x l IH]; simpl; [done|].
  rewrite insert_by_stable. simpl. by rewrite IH.
Qed.

(** Only the order of the keys matters to the sort. *)
Lemma sort_by_order (key' : A -> Z) l :
  (forall a b, (key a <=? key b) = (key' a <=? key' b)) ->
  sort_by key l = sort_by key' l.
Proof.
  intros Hord. induction l as [|x l IH]; simpl; [done|].
  rewrite IH. generalize (sort_by key' l). intros m.
  induction m as [|y m IHm]; simpl; [done|].
  by rewrite Hord, IHm.
Qed.

End Sorting.

(** ** The POI fetcher *)

Lemma score_from_rank i ks kinds :
  (i + length ks = length priority)%nat ->
  score_from i ks kinds = Z.of_nat (i + first_match ks kinds) - Z.of_nat (length priority).
Proof.
  revert i. induction ks as [|k ks IH]; intros i Hi; simpl in *.
  - lia.
  - destruct (contains k kinds); [lia|].
    rewrite IH by lia. lia.
Qed.

(** The score is the rank in the priority table, shifted by its length:
    the best kind scores lowest and a text without a match scores 0. *)
Lemma score_rank p : score p = spec_rank p - 8.
Proof. unfold score, spec_rank. by rewrite score_from_rank. Qed.

Lemma first_match_bound ks kinds : (first_match ks kinds <= length ks)%nat.
Proof. induction ks as [|k ks IH]; simpl; [lia|]. destruct (contains k kinds); lia. Qed.

Lemma first_match_hit ks kinds :
  (first_match ks kinds < length ks)%nat ->
  exists k, ks !! first_match ks kinds = Some k /\ contains k kinds = true
    /\ forall j k', (j < first_match ks kinds)%nat -> ks !! j = Some k' ->
         contains k' kinds = false.
Proof.
  induction ks as [|k ks IH]; simpl; [lia|].
  destruct (contains k kinds) eqn:Hk.
  - intros _. exists k. split_and!; [done..|]. intros j k' Hj. lia.
  - intros Hlt. destruct IH as (k0 & H0 & Hc & Hbefore); [lia|].
    exists k0. split_and!; [done..|].
    intros [|j] k' Hj; simpl; [by intros [= <-]|].
    apply Hbefore. lia.
Qed.

Lemma first_match_miss ks kinds :
  first_match ks kinds = length ks -> forall k, k ∈ ks -> contains k kinds = false.
Proof.
  induction ks as [|k ks IH]; simpl; [intros _ k Hk; by apply elem_of_nil in Hk|].
  destruct (contains k kinds) eqn:Hk; [done|].
  intros [= H] k' [->|Hk']%elem_of_cons; [done|]. by apply IH.
Qed.

Lemma sort_by_score_rank l : sort_by score l = sort_by spec_rank l.
Proof.
  apply sort_by_order. intros a b. rewrite !score_rank.
  destruct (spec_rank a <=? spec_rank b) eqn:E.
  - apply Z.leb_le. apply Z.leb_le in E. lia.
  - apply Z.leb_gt. apply Z.leb_gt in E. lia.
Qed.

(** *** Deduplication *)

Lemma filter_filter_and {A} (P Q : A -> bool) l :
  List.filter P (List.filter Q l) = List.filter (fun x => (Q x && P x)%bool) l.
Proof.
  induction l as [|x l IH]; simpl; [done|].
  destruct (Q x); simpl; [|done]. destruct (P x); simpl; by rewrite IH.
Qed.

Section KeepFirst.

Context {A : Type}.
Variable key : A -> string.

(** Dropping by key commutes with the deduplication. *)
Lemma keep_first_filter (P : string -> bool) l :
  keep_first key (List.filter (fun x => P (key x)) l)
  = List.filter (fun x => P (key x)) (keep_first key l).
Proof.
  induction l as [|x l IH]; simpl; [done|].
  destruct (P (key x)) eqn:HP; simpl.
  - rewrite IH. f_equal. rewrite !filter_filter_and.
    apply List.filter_ext. intros y. apply andb_comm.
  - rewrite IH, filter_filter_and. apply List.filter_ext. intros y.
    destruct (String.eqb (key y) (key x)) eqn:E; simpl; [|done].
    apply String.eqb_eq in E. by rewrite E, HP.
Qed.

Lemma keep_first_keys l : NoDup (List.map key (keep_first key l)).
Proof.
  induction l as [|x l IH]; simpl; [constructor|].
  constructor.
  - intros (y & Hy & Hin%filter_In)%list_elem_of_In%in_map_iff.
    destruct Hin as [_ Hne]. by rewrite Hy, String.eqb_refl in Hne.
  - by apply NoDup_map_filter.
Qed.

Lemma keep_first_sublist l : keep_first key l `sublist_of` l.
Proof.
  induction l as [|x l IH]; simpl; [done|].
  constructor. etrans; [|done].
  generalize (keep_first key l). intros m.
  induction m as [|y m IHm]; simpl; [done|].
  destruct (negb _); by constructor.
Qed.

(** Every key of the list is still there after the deduplication. *)
Lemma keep_first_complete l x :
  x ∈ l -> key x ∈ List.map key (keep_first key l).
Proof.
  induction l as [|y l IH]; [by intros ?%elem_of_nil|].
  intros [->|Hx]%elem_of_cons; simpl; [by left|].
  destruct (String.eqb (key x) (key y)) eqn:E.
  - apply String.eqb_eq in E. rewrite E. by left.
  - right. apply IH in Hx.
    apply list_elem_of_In, in_map_iff in Hx as (z & Hz & Hin).
    apply list_elem_of_In, in_map_iff. exists z. split; [done|].
    apply filter_In. split; [done|]. by rewrite Hz, E.
Qed.

End KeepFirst.

(** The loop of [fetch_pois_overpass] computes the deduplication of the
    named elements that are not yet seen, up to the room that is left. *)
Lemma overpass_loop_spec limit el seen results :
  Z.of_nat (length results) < limit ->
  overpass_loop limit el seen results
  = (results
     ++ firstn (Z.to_nat limit - length results)
          (keep_first poi_key
             (List.filter (fun p => bool_decide (poi_key p ∉ seen)) (omap named_poi el))))%list.
Proof.
  revert seen results. induction el as [|e el IH]; intros seen results Hroom; simpl.
  { by rewrite firstn_nil, app_nil_r. }
  unfold named_poi at 1.
  destruct (nonempty (default "" (el_tags e !! "name"))) eqn:Hname; simpl.
  2: { by apply IH. }
  set (p := MkPoi _ _ None).
  change (lower (strip (default "" (el_tags e !! "name")))) with (poi_key p).
  destruct (decide (poi_key p ∈ seen)) as [Hin|Hnew].
  - rewrite bool_decide_eq_false_2 by (by intros ?). by apply IH.
  - rewrite bool_decide_eq_true_2 by done. simpl.
    destruct (Z.to_nat limit - length results)%nat as [|room] eqn:Hr; [lia|]. simpl.
    destruct (_ >=? limit) eqn:Hfull.
    + rewrite Z.geb_leb in Hfull. apply Z.leb_le in Hfull.
      rewrite length_app in Hfull. simpl in Hfull.
      replace room with 0%nat by lia. done.
    + rewrite Z.geb_leb in Hfull. apply Z.leb_gt in Hfull.
      rewrite IH by done. rewrite <- app_assoc. simpl. do 2 f_equal.
      replace (Z.to_nat limit - length (results ++ [p]))%nat with room
        by (rewrite length_app; simpl; lia).
      f_equal.
      rewrite <- (keep_first_filter poi_key (fun k => negb (String.eqb k (poi_key p)))).
      f_equal. rewrite filter_filter_and. apply List.filter_ext. intros q.
      destruct (String.eqb (poi_key q) (poi_key p)) eqn:E.
      * apply String.eqb_eq in E. rewrite E.
        rewrite bool_decide_eq_false_2; [by rewrite andb_false_r|].
        intros Hq. apply Hq. apply elem_of_union. right. by apply elem_of_singleton.
      * apply String.eqb_neq in E. rewrite andb_true_r.
        apply bool_decide_ext. rewrite not_elem_of_union, not_elem_of_singleton.
        tauto.
Qed.

Lemma filter_unseen (l : list poi) :
  List.filter (fun p => bool_decide (poi_key p ∉ (∅ : gset string))) l = l.
Proof.
  rewrite (List.filter_ext _ (fun _ => true)).
  - induction l as [|p l IH]; simpl; [done|]. by f_equal.
  - intros p. apply bool_decide_eq_true_2, not_elem_of_empty.
Qed.

(** The answer of [fetch_pois_overpass] for a request that asks for at
    least one result. *)
Lemma fetch_pois_overpass_spec W lat lon radius limit :
  0 < limit ->
  fetch_pois_overpass W lat lon radius limit
  = (spec_candidates limit (default [] (overpass W lat lon radius limit)),
     [OverpassQuery lat lon radius limit]).
Proof.
  intros Hpos. unfold fetch_pois_overpass, request, io_bind, io_ret. simpl. f_equal.
  unfold spec_candidates.
  destruct (overpass W lat lon radius limit) as [el|]; simpl.
  - rewrite overpass_loop_spec by (simpl; lia). simpl.
    by rewrite Nat.sub_0_r, filter_unseen.
  - by rewrite firstn_nil.
Qed.

Lemma NoDup_map_inv {A B} (f : A -> B) (l : list A) : NoDup (List.map f l) -> NoDup l.
Proof. apply (NoDup_fmap_1 f). Qed.

Lemma NoDup_map_take {A B} (f : A -> B) (n : nat) (l : list A) :
  NoDup (List.map f l) -> NoDup (List.map f (firstn n l)).
Proof.
  intros H. rewrite <- firstn_map. eapply sublist_NoDup; [done|apply sublist_take].
Qed.

Lemma NoDup_map_py_take {A B} (f : A -> B) (n : Z) (l : list A) :
  NoDup (List.map f l) -> NoDup (List.map f (py_take n l)).
Proof. unfold py_take. destruct (0 <=? n); apply NoDup_map_take. Qed.

Lemma spec_candidates_keys requested el :
  NoDup (List.map poi_key (spec_candidates requested el)).
Proof. apply NoDup_map_take, keep_first_keys. Qed.

(** The deduplication loop of the primary path keeps the keys apart. *)
Lemma primary_loop_keys pois seen filtered :
  NoDup (List.map poi_key filtered) ->
  seen = list_to_set (List.map poi_key filtered) ->
  NoDup (List.map poi_key (primary_loop pois seen filtered)).
Proof.
  revert seen filtered. induction pois as [|p pois IH]; intros seen filtered Hnd Hseen;
    simpl; [done|].
  destruct (negb _); [by apply IH|].
  change (lower (strip (poi_name p))) with (poi_key p).
  destruct (decide (poi_key p ∈ seen)) as [Hin|Hnew]; [by apply IH|].
  apply IH.
  - rewrite map_app. simpl. apply NoDup_app. split_and!; [done| |apply NoDup_singleton].
    intros k Hk ->%list_elem_of_singleton. apply Hnew. rewrite Hseen.
    by apply elem_of_list_to_set.
  - rewrite map_app, list_to_set_app_L, Hseen. simpl.
    by rewrite (right_id_L ∅ (∪)).
Qed.

(** The primary fetcher returns one entry per feature of the radius
    answer, after the radius request and the detail requests. *)
Lemma otm_loop_spec features :
  otm_loop features = (List.map ft_entry features, detail_requests features).
Proof.
  induction features as [|p fs IH]; [done|].
  cbn [otm_loop]. rewrite IH. unfold detail_requests. cbn [omap list_omap].
  destruct (ft_xid p) as [xid|]; [destruct (nonempty xid)|];
    cbv beta iota zeta delta [io_bind io_ret request];
    by rewrite app_nil_r.
Qed.

Lemma fetch_pois_opentripmap_spec W lat lon radius limit :
  fetch_pois_opentripmap W lat lon radius limit
  = if OPENTRIPMAP_API_KEY W
    then (List.map ft_entry (otm_radius W lat lon radius limit),
          OtmRadius lat lon radius limit
            :: detail_requests (otm_radius W lat lon radius limit))
    else ([], []).
Proof.
  unfold fetch_pois_opentripmap. destruct (OPENTRIPMAP_API_KEY W); [|done].
  unfold request, io_bind. by rewrite otm_loop_spec.
Qed.

Lemma detail_requests_providers features :
  Forall (fun e => is_otm e = true /\ is_overpass e = false /\ is_forecast e = false)
    (detail_requests features).
Proof.
  apply Forall_forall. intros e (p & _ & He)%list_elem_of_omap.
  destruct (ft_xid p) as [xid|]; [destruct (nonempty xid)|]; by simplify_eq.
Qed.

Lemma fetch_pois_opentripmap_providers W lat lon radius limit :
  Forall (fun e => is_otm e = true /\ is_overpass e = false /\ is_forecast e = false)
    (snd (fetch_pois_opentripmap W lat lon radius limit)).
Proof.
  rewrite fetch_pois_opentripmap_spec. destruct (OPENTRIPMAP_API_KEY W); [|constructor].
  constructor; [done|]. apply detail_requests_providers.
Qed.

(** Whichever path answers, [fetch_pois] returns no key twice, hence no
    name twice. *)
Lemma fetch_pois_keys W lat lon radius limit :
  NoDup (List.map poi_key (fst (fetch_pois W lat lon radius limit))).
Proof.
  unfold fetch_pois. destruct (fetch_pois_opentripmap W lat lon radius limit) as [pois l1].
  unfold io_bind at 1. destruct pois as [|p pois].
  - rewrite fetch_pois_overpass_spec by lia. unfold io_bind.
    destruct (spec_candidates _ _) as [|c cs] eqn:E; [simpl; constructor|].
    unfold io_ret. cbv beta iota zeta. cbn [fst].
    apply NoDup_map_py_take. rewrite <- E.
    rewrite (Permutation_map poi_key (sort_by_perm score _)).
    apply spec_candidates_keys.
  - unfold io_ret. cbn [fst].
    apply NoDup_map_py_take. apply primary_loop_keys; [constructor|done].
Qed.

Lemma fetch_pois_names W lat lon radius limit :
  NoDup (List.map pe_name (make_pool (fst (fetch_pois W lat lon radius limit)))).
Proof.
  unfold make_pool. rewrite map_map. simpl.
  apply (NoDup_map_inv name_key). rewrite map_map.
  apply fetch_pois_keys.
Qed.

(** C5: the Overpass request is made only when the primary path returned
    nothing, and it asks for [max(limit, 12)] results, at least 12.  The
    answer of the fallback path is then: the named elements, deduplicated by
    trimmed lowered name in first-seen order and cut to the number
    requested; sorted by rank in the priority table attraction, museum,
    memorial, monument, historic, park, marketplace, gallery, a kinds text
    without a match ranking last; elements of equal rank in the order they
    had; and the first [limit] of these. *)
Theorem fallback_path_ranked W lat lon radius limit :
  let primary := fst (fetch_pois_opentripmap W lat lon radius limit) in
  let requested := Z.max limit 12 in
  let candidates :=
    spec_candidates requested (default [] (overpass W lat lon radius requested)) in
  let ranked := sort_by spec_rank candidates in
  (primary <> [] ->
     forall la lo r l, OverpassQuery la lo r l ∉ snd (fetch_pois W lat lon radius limit))
  /\ (primary = [] ->
        fst (fetch_pois W lat lon radius limit) = py_take limit ranked
        /\ snd (fetch_pois W lat lon radius limit)
           = (snd (fetch_pois_opentripmap W lat lon radius limit)
              ++ [OverpassQuery lat lon radius requested])%list)
  /\ 12 <= requested
  /\ NoDup (List.map poi_key candidates)
  /\ ranked ≡ₚ candidates
  /\ StronglySorted (fun a b => spec_rank a <= spec_rank b) ranked
  /\ (forall k, List.filter (fun a => spec_rank a =? k) ranked
                = List.filter (fun a => spec_rank a =? k) candidates)
  /\ priority = ["attraction"; "museum"; "memorial"; "monument"; "historic"; "park";
                 "marketplace"; "gallery"]
  /\ (forall p, 0 <= spec_rank p <= 8
        /\ (spec_rank p = 8 <->
            forall k, k ∈ priority -> contains k (lower (poi_kinds p)) = false)
        /\ (spec_rank p < 8 ->
            exists k, priority !! Z.to_nat (spec_rank p) = Some k
              /\ contains k (lower (poi_kinds p)) = true
              /\ forall j k', (j < Z.to_nat (spec_rank p))%nat -> priority !! j = Some k' ->
                   contains k' (lower (poi_kinds p)) = false))
  /\ (0 <= limit -> py_take limit ranked = firstn (Z.to_nat limit) ranked).
Proof.
  intros primary requested candidates ranked.
  split_and!.
  - subst primary. unfold fetch_pois.
    destruct (fetch_pois_opentripmap W lat lon radius limit) as [pois l1] eqn:E.
    cbn [fst snd]. intros Hne la lo r l. destruct pois as [|p pois]; [done|].
    unfold io_bind, io_ret. cbn [snd]. rewrite app_nil_r.
    pose proof (fetch_pois_opentripmap_providers W lat lon radius limit) as Hl1.
    rewrite E in Hl1. cbn [snd] in Hl1.
    intros Hin. rewrite Forall_forall in Hl1.
    by destruct (Hl1 _ Hin) as (_ & ? & _).
  - subst primary. unfold fetch_pois.
    destruct (fetch_pois_opentripmap W lat lon radius limit) as [pois l1] eqn:E.
    cbn [fst snd]. intros ->. unfold io_bind at 1.
    rewrite fetch_pois_overpass_spec by lia. unfold io_bind.
    fold requested. fold candidates. subst ranked.
    rewrite <- sort_by_score_rank.
    destruct candidates as [|c cs]; [|done].
    unfold io_ret. cbn [fst snd]. split; [|done].
    unfold py_take. simpl. by destruct (0 <=? limit); rewrite ?firstn_nil.
  - lia.
  - apply spec_candidates_keys.
  - apply sort_by_perm.
  - apply sort_by_sorted.
  - intros k. apply sort_by_stable.
  - done.
  - intros p. unfold spec_rank.
    pose proof (first_match_bound priority (lower (poi_kinds p))) as Hb.
    change (length priority) with 8%nat in Hb.
    split_and!; [lia|lia| |].
    + split; [intros H; apply first_match_miss; change (length priority) with 8%nat; lia|].
      intros H.
      destruct (decide (first_match priority (lower (poi_kinds p)) = 8%nat)) as [->|Hne];
        [done|].
      destruct (first_match_hit priority (lower (poi_kinds p))) as (k & Hk & Hc & _).
      { change (length priority) with 8%nat. lia. }
      apply list_elem_of_lookup_2 in Hk. rewrite (H k Hk) in Hc. done.
    + intros Hlt. rewrite Nat2Z.id. apply first_match_hit.
      change (length priority) with 8%nat. lia.
  - intros H. unfold py_take. apply Z.leb_le in H. by rewrite H.
Qed.


(** ** Rainy days of a plan *)

(** C3, as the code has it: on a rainy day that starts with at least
    [daily_limit] indoor POIs of the fetched pool unassigned, the day
    selects exactly [daily_limit] POIs (none when the limit is not
    positive) and all of them are indoor.  So the slots below
    [min(3, daily_limit)] hold indoor POIs, the slots from [daily_limit]
    on hold no POI, and with a limit of three or more every slot of the
    row shows an indoor POI. *)
Theorem rainy_day_selection_indoor W lat lon radius limit precip tmax tmin
    daily_limit iso sd num_days i :
  let pool := make_pool (fst (fetch_pois W lat lon radius limit)) in
  let before := plan pool precip tmax tmin daily_limit iso sd i in
  let st := plan pool precip tmax tmin daily_limit iso sd num_days in
  (i < num_days)%nat ->
  rainy_day precip i = true ->
  daily_limit <= Z.of_nat (length (List.filter (indoor_free (p_assigned before)) pool)) ->
  exists chosen r,
    p_days st !! i = Some chosen
    /\ p_rows st !! i = Some r
    /\ Z.of_nat (length chosen) = Z.max 0 daily_limit
    /\ (forall n, n ∈ chosen ->
          exists p, p ∈ pool /\ pe_name p = n /\ pe_is_indoor p = true)
    /\ (forall k, (k < 3)%nat -> Z.of_nat k < daily_limit ->
          exists p, p ∈ pool /\ pe_is_indoor p = true
            /\ slot_poi (p_days st) i k = Some (pe_name p))
    /\ (forall k, daily_limit <= Z.of_nat k -> slot_poi (p_days st) i k = None)
    /\ (3 <= daily_limit -> all_slots_indoor pool r).
Proof.
  intros pool before st Hi Hrain Henough.
  pose proof (plan_day_lookup pool precip tmax tmin daily_limit iso sd num_days i Hi)
    as Hday.
  rewrite Hrain in Hday. fold before in Hday.
  destruct (select_rainy_day pool daily_limit (p_assigned before) (p_idx before))
    as [Hlen Hindoor].
  { apply fetch_pois_names. } { done. }
  set (chosen := day_selected _) in *.
  pose proof (plan_rows_lookup _ _ _ _ _ _ _ _ _ _ Hday) as Hrow.
  assert (forall k, Z.of_nat k < daily_limit ->
            exists p, p ∈ pool /\ pe_is_indoor p = true /\ chosen !! k = Some (pe_name p))
    as Hslot.
  { intros k Hk. destruct (lookup_lt_is_Some_2 chosen k) as [n Hn]; [lia|].
    destruct (Hindoor n) as (p & Hp & <- & Hin); [by eapply list_elem_of_lookup_2|].
    by exists p. }
  exists chosen, (row_of precip tmax tmin iso sd i chosen).
  split_and!; try done.
  - intros k Hk3 Hk. destruct (Hslot k Hk) as (p & Hp & Hin & Hc).
    exists p. split_and!; [done..|]. apply slot_poi_Some. eauto.
  - intros k Hk. destruct (slot_poi (p_days st) i k) as [n|] eqn:E; [|done].
    apply slot_poi_Some in E as (_ & c & Hc & Hn).
    fold st in Hday. rewrite Hday in Hc. injection Hc as <-.
    apply lookup_lt_Some in Hn. lia.
  - intros H3 text Htext.
    destruct (Hslot 0%nat) as (p0 & Hp0 & Hin0 & Hc0); [lia|].
    destruct (Hslot 1%nat) as (p1 & Hp1 & Hin1 & Hc1); [lia|].
    destruct (Hslot 2%nat) as (p2 & Hp2 & Hin2 & Hc2); [lia|].
    simpl in Htext. unfold morning_of, afternoon_of, evening_of in Htext.
    rewrite Hc0, Hc1, Hc2 in Htext. simpl in Htext.
    apply elem_of_cons in Htext as [->|Htext]; [by exists p0|].
    apply elem_of_cons in Htext as [->|Htext]; [by exists p1|].
    apply elem_of_cons in Htext as [->|Htext]; [by exists p2|].
    by apply elem_of_nil in Htext.
Qed.

(** C3 as it was worded fails for a limit below three: a rainy day with a
    limit of two and two free indoor POIs fills the morning and the
    afternoon with them, and the evening is the placeholder, which is no
    indoor POI. *)
Lemma rainy_day_slots_counterexample :
  let precip := [JNum (Fin 5)] in
  let before := plan Demo.pool6 precip [] [] 2 pretty 0 0 in
  let st := plan Demo.pool6 precip [] [] 2 pretty 0 1 in
  NoDup (List.map pe_name Demo.pool6)
  /\ rainy_day precip 0 = true
  /\ 2 <= Z.of_nat (length (List.filter (indoor_free (p_assigned before)) Demo.pool6))
  /\ exists r, p_rows st !! 0%nat = Some r
       /\ r_morning r = "City Museum" /\ r_afternoon r = "Art Gallery"
       /\ r_evening r = dinner_slot
       /\ ~ all_slots_indoor Demo.pool6 r.
Proof.
  split_and!.
  - apply (bool_decide_unpack (NoDup _)). by vm_compute.
  - reflexivity.
  - vm_compute. discriminate.
  - eexists. split; [vm_compute; reflexivity|].
    split_and!; try reflexivity.
    intros H. destruct (H dinner_slot) as (p & Hp & Hname & _).
    { simpl. do 2 right. left. }
    vm_compute in Hp.
    repeat (apply elem_of_cons in Hp as [->|Hp]; [discriminate|]).
    by apply elem_of_nil in Hp.
Qed.

(** ** The theorems at work on the demo world *)

Lemma itinerary_rows_cover_range_witness :
  fst (geocode_city Demo.world0 "Goa") = Some Demo.goa
  /\ parse_date Demo.world0 "2024-01-10" = Some 738895
  /\ parse_date Demo.world0 "2024-01-12" = Some 738897
  /\ Z.of_nat (length (p_rows
        (itinerary_plan Demo.world0
           (fst (fetch_pois Demo.world0 (Fin 15) (Fin 74) 3500 20))
           (fst (fetch_weather Demo.world0 (Fin 15) (Fin 74) "738895" "738897"))
           738895 738897 2))) = 3.
Proof.
  split_and!; [reflexivity..|].
  destruct (itinerary_rows_cover_range Demo.world0 "Goa" "2024-01-10" "2024-01-12" 2
              Demo.goa 738895 738897) as (_ & H & _);
    [reflexivity|reflexivity|reflexivity|lia|exact H].
Defined.

Lemma rainy_day_selection_indoor_witness :
  let pool := make_pool (fst (fetch_pois Demo.world0 (Fin 15) (Fin 74) 3500 20)) in
  rainy_day [JNum (Fin 5)] 0 = true
  /\ exists chosen,
       p_days (plan pool [JNum (Fin 5)] [] [] 2 pretty 0 1) !! 0%nat = Some chosen
       /\ Z.of_nat (length chosen) = 2.
Proof.
  split; [reflexivity|].
  destruct (rainy_day_selection_indoor Demo.world0 (Fin 15) (Fin 74) 3500 20
              [JNum (Fin 5)] [] [] 2 pretty 0 1 0)
    as (chosen & r & Hc & _ & Hlen & _).
  - lia.
  - reflexivity.
  - vm_compute. discriminate.
  - exists chosen. split; [exact Hc|exact Hlen].
Defined.


Lemma temperature_note_by_max_witness :
  temp_part [JNum (Fin 35)] [JNum (Fin 20)] 0 = ["Hot during day"]
  /\ weather_note_for_day [JNum (Fin 0)] [JNum (Fin 35)] [JNum (Fin 20)] 0
     = "Good weather for walking; Hot during day".
Proof.
  destruct (temperature_note_by_max [JNum (Fin 0)] [JNum (Fin 35)] [JNum (Fin 20)] 0
              (Fin 35) (Fin 20) eq_refl eq_refl) as (_ & Hhot & _ & _ & _ & Hnote & _).
  split; [apply Hhot; reflexivity|exact Hnote].
Defined.


(** * Further properties of the code *)

(** ** Results and request logs of composed calls *)

Lemma io_bind_fst {A B} (m : IO A) (f : A -> IO B) :
  fst (io_bind m f) = fst (f (fst m)).
Proof. destruct m as [a l]. simpl. by destruct (f a). Qed.

Lemma io_bind_snd {A B} (m : IO A) (f : A -> IO B) :
  snd (io_bind m f) = (snd m ++ snd (f (fst m)))%list.
Proof. destruct m as [a l]. simpl. by destruct (f a). Qed.

Lemma io_pair {A} (m : IO A) : m = (fst m, snd m).
Proof. by destruct m. Qed.


(** ** The geocoder's requests *)

Section GeocoderLogs.

Variable W : world.

Lemma once_log place ua :
  snd (geocode_nominatim_once W place ua) = [NominatimSearch place ua].
Proof. done. Qed.

Lemma opentripmap_log place :
  snd (geocode_opentripmap W place)
  = if OPENTRIPMAP_API_KEY W then [OtmGeoname place] else [].
Proof. unfold geocode_opentripmap. by destruct (OPENTRIPMAP_API_KEY W). Qed.

Lemma opentripmap_no_key place :
  OPENTRIPMAP_API_KEY W = false -> geocode_opentripmap W place = (None, []).
Proof. intros H. unfold geocode_opentripmap. by rewrite H. Qed.

Lemma try_user_agents_log place uas :
  (length (snd (try_user_agents W place uas)) <= length uas)%nat
  /\ Forall (fun e => is_nominatim e = true) (snd (try_user_agents W place uas)).
Proof.
  induction uas as [|ua uas [IHl IHf]]; [by split; [simpl; lia|constructor]|].
  cbn [try_user_agents length]. rewrite io_bind_snd, once_log.
  destruct (fst (geocode_nominatim_once W place ua)).
  - split; [simpl; lia|by repeat constructor].
  - cbn [app length]. split; [lia|by constructor].
Qed.

Lemma geocode_nominatim_log place :
  (length (snd (geocode_nominatim W place)) <= if hint_applies place then 3 else 2)%nat
  /\ Forall (fun e => is_nominatim e = true) (snd (geocode_nominatim W place)).
Proof.
  unfold geocode_nominatim. rewrite io_bind_snd.
  destruct (try_user_agents_log place user_agents) as [Hl Hf]. simpl in Hl.
  fold (hint_applies place).
  destruct (fst (try_user_agents W place user_agents)); simpl.
  - rewrite app_nil_r. split; [destruct (hint_applies place); lia|done].
  - destruct (hint_applies place); simpl.
    + rewrite length_app. simpl. split; [lia|].
      apply Forall_app. split; [done|by repeat constructor].
    + rewrite app_nil_r. split; [lia|done].
Qed.

Lemma hint_not_after_hint place : hint_applies (place ++ ", India") = false.
Proof.
  unfold hint_applies.
  by rewrite (contains_app_r "," place ", India").
Qed.

(** The requests of [geocode_city]: the OpenTripMap lookup when there is
    a key, then Nominatim only. *)
Lemma geocode_city_log place :
  exists l,
    snd (geocode_city W place)
    = ((if (nonempty (strip place) && OPENTRIPMAP_API_KEY W)%bool
        then [OtmGeoname (strip place)] else []) ++ l)%list
    /\ (length l <= 5)%nat
    /\ Forall (fun e => is_nominatim e = true) l.
Proof.
  unfold geocode_city.
  destruct (nonempty (strip place)) eqn:Hne; simpl.
  2: { exists []. split; [done|]. split; [simpl; lia|constructor]. }
  rewrite io_bind_snd, opentripmap_log.
  destruct (fst (geocode_opentripmap W (strip place))) as [g|].
  { exists []. simpl. split; [done|]. split; [simpl; lia|constructor]. }
  rewrite io_bind_snd.
  destruct (geocode_nominatim_log (strip place)) as [Hl Hf].
  assert (length (snd (geocode_nominatim W (strip place))) <= 3)%nat as Hl3
    by (destruct (hint_applies (strip place)); lia).
  destruct (fst (geocode_nominatim W (strip place))) as [g|].
  2: { eexists. split; [done|]. simpl. rewrite app_nil_r. split; [lia|done]. }
  destruct (_ && _)%bool.
  - rewrite io_bind_snd.
    destruct (geocode_nominatim_log (strip place ++ ", India")) as [Hl' Hf'].
    rewrite hint_not_after_hint in Hl'.
    eexists. split; [done|].
    assert (forall o : option place_info,
              snd (match o with Some a => io_ret (Some a) | None => io_ret (Some g) end)
              = []) as -> by (by intros []).
    rewrite app_nil_r, length_app. split; [lia|]. by apply Forall_app.
  - eexists. split; [done|]. simpl. rewrite app_nil_r. split; [lia|done].
Qed.

End GeocoderLogs.


Lemma filter_none {A} (f : A -> bool) (l : list A) :
  Forall (fun x => f x = false) l -> List.filter f l = [].
Proof. induction 1 as [|x l Hx _ IH]; simpl; [done|]. by rewrite Hx. Qed.


(** ** More on strings *)

Lemma lower_ascii_idem c : lower_ascii (lower_ascii c) = lower_ascii c.
Proof. by destruct c as [[] [] [] [] [] [] [] []]. Qed.

Lemma lower_idem s : lower (lower s) = lower s.
Proof. induction s as [|c s IH]; simpl; [done|]. by rewrite lower_ascii_idem, IH. Qed.

Lemma rstrip_cons c s :
  rstrip (String c s)
  = match rstrip s with
    | EmptyString => if is_space c then EmptyString else String c EmptyString
    | r => String c r
    end.
Proof. done. Qed.

Lemma rstrip_idem s : rstrip (rstrip s) = rstrip s.
Proof.
  induction s as [|c s IH]; [done|].
  rewrite (rstrip_cons c s).
  destruct (rstrip s) as [|d r] eqn:E.
  - destruct (is_space c) eqn:Hc; [done|]. rewrite rstrip_cons. simpl. by rewrite Hc.
  - rewrite rstrip_cons, IH. done.
Qed.

(** A string that is empty or starts with a visible character. *)
Lemma lstrip_fixed s :
  match s with EmptyString => True | String c _ => is_space c = false end ->
  lstrip s = s.
Proof. destruct s as [|c s]; simpl; [done|]. by intros ->. Qed.

Lemma lstrip_head s :
  match lstrip s with EmptyString => True | String c _ => is_space c = false end.
Proof.
  induction s as [|c s IH]; simpl; [done|].
  destruct (is_space c) eqn:Hc; [done|]. by simpl.
Qed.

Lemma rstrip_head s :
  match s with EmptyString => True | String c _ => is_space c = false end ->
  match rstrip s with EmptyString => True | String c _ => is_space c = false end.
Proof.
  destruct s as [|c s]; simpl; [done|]. intros Hc.
  destruct (rstrip s); [by rewrite Hc|done].
Qed.

Lemma strip_idem s : strip (strip s) = strip s.
Proof.
  unfold strip. rewrite (lstrip_fixed (rstrip (lstrip s))).
  - apply rstrip_idem.
  - apply rstrip_head, lstrip_head.
Qed.

Lemma find_all_false {A} (f : A -> bool) (l : list A) :
  (forall x, x ∈ l -> f x = false) -> List.find f l = None.
Proof.
  induction l as [|a l IH]; simpl; [done|]. intros H.
  rewrite (H a) by (by left). apply IH. intros x Hx. apply H. by right.
Qed.

(** ** The geocoder's answers *)

(** The derivation of the category from the lowered class:type text;
    the test on the type alone never decides. *)
Lemma category_of_spec fclass ftype :
  category_of fclass ftype = spec_category (lower (fclass ++ ":" ++ ftype)).
Proof.
  unfold category_of, spec_category.
  set (ct := lower (fclass ++ ":" ++ ftype)).
  destruct (contains "beach" ct) eqn:Hb; simpl; [done|].
  destruct (contains "beach" ftype) eqn:Hf.
  - apply (beach_in_type_redundant fclass) in Hf. fold ct in Hf. congruence.
  - simpl. by rewrite !orb_false_r, !orb_assoc.
Qed.

(** X2: with a key, a place that OpenTripMap resolves is returned at once:
    one request, none to Nominatim, whatever the returned name is; the
    category is the reply's type, or "place" when that is missing. *)
Theorem opentripmap_trusted W place d :
  OPENTRIPMAP_API_KEY W = true ->
  strip place <> "" ->
  otm_geoname W (strip place) = Some d ->
  exists g,
    geocode_city W place = (Some g, [OtmGeoname (strip place)])
    /\ g_lat g = og_lat d /\ g_lon g = og_lon d
    /\ g_name g = default (strip place) (og_name d)
    /\ g_category g = (if nonempty (og_type d) then og_type d else "place").
Proof.
  intros Hkey Hne Hd. unfold geocode_city, geocode_opentripmap.
  destruct (strip place) as [|c s] eqn:E; [done|]. simpl.
  rewrite Hkey. unfold request, io_bind, io_ret. rewrite Hd.
  eexists. split; [done|]. by simpl.
Qed.

Lemma opentripmap_trusted_witness :
  exists g,
    geocode_city Demo2.world1 " Goa " = (Some g, [OtmGeoname "Goa"])
    /\ g_name g = "Goa" /\ g_category g = "place".
Proof.
  destruct (opentripmap_trusted Demo2.world1 " Goa "
              (MkOtmGeo (Fin 15) (Fin 74) (Some "Goa") ""))
    as (g & Hg & _ & _ & Hname & Hcat); [reflexivity|discriminate|reflexivity|].
  exists g. split; [exact Hg|]. split; [exact Hname|exact Hcat].
Defined.




(** X4: [geocode_city] answers [None] exactly when the trimmed name is
    empty, or OpenTripMap gives nothing and [geocode_nominatim] on the
    trimmed name gives nothing; a failed search with the country appended
    never discards a place already found.  [geocode_nominatim] answers
    [None] exactly when both user agents fail and the attempt with the
    country hint, where it applies, fails too. *)
Theorem geocode_not_found_iff W place :
  let p := strip place in
  (fst (geocode_city W place) = None <->
     p = "" \/ (fst (geocode_opentripmap W p) = None
                /\ fst (geocode_nominatim W p) = None))
  /\ (forall q,
        fst (geocode_nominatim W q) = None <->
          fst (geocode_nominatim_once W q "LangGraph-Travel-Agent/1.0") = None
          /\ fst (geocode_nominatim_once W q "Mozilla/5.0 (compatible; LangGraphAgent/1.0)")
             = None
          /\ (hint_applies q = true ->
              fst (geocode_nominatim_once W (q ++ ", India") "LangGraph-Travel-Agent/1.0")
              = None)).
Proof.
  intros p. split.
  - unfold geocode_city. fold p.
    destruct (nonempty p) eqn:Hne; cbn [negb].
    2: { split; [intros _; left; by destruct p|done]. }
    assert (p <> "") as Hp by (by destruct p).
    rewrite io_bind_fst.
    destruct (fst (geocode_opentripmap W p)) as [g|].
    { split; [done|]. by intros [?|[? _]]. }
    rewrite io_bind_fst.
    destruct (fst (geocode_nominatim W p)) as [g|].
    + split; [|by intros [?|[_ ?]]].
      destruct (_ && _)%bool; [|done].
      rewrite io_bind_fst. by destruct (fst (geocode_nominatim W _)).
    + split; [by right|done].
  - intros q. unfold geocode_nominatim. rewrite io_bind_fst.
    fold (hint_applies q). unfold user_agents. cbn [try_user_agents].
    rewrite io_bind_fst.
    destruct (fst (geocode_nominatim_once W q "LangGraph-Travel-Agent/1.0")) as [g|];
      [split; [done|by intros [? _]]|].
    rewrite io_bind_fst.
    destruct (fst (geocode_nominatim_once W q _)) as [g|];
      [split; [done|by intros (_ & ? & _)]|].
    cbn [io_ret fst].
    destruct (hint_applies q).
    + split; [by intros ->|]. intros (_ & _ & H). by apply H.
    + split; [done|]. done.
Qed.

(** X5: the category does not depend on the case of the class and the
    type. *)
Theorem category_case_insensitive fclass ftype :
  category_of (lower fclass) (lower ftype) = category_of fclass ftype.
Proof.
  rewrite !category_of_spec. f_equal.
  by rewrite !lower_app, !lower_idem.
Qed.

(** X6: blanks around the place name do not matter to [geocode_city]:
    the trimmed name gives the same answer through the same requests. *)
Theorem geocode_city_trims W place :
  geocode_city W (strip place) = geocode_city W place.
Proof. unfold geocode_city. by rewrite strip_idem. Qed.

(** ** More on the POI fetcher *)

Lemma py_take_length {A} (n : Z) (l : list A) :
  0 <= n -> Z.of_nat (length (py_take n l)) <= n.
Proof.
  intros Hn. unfold py_take. apply Z.leb_le in Hn as Hb. rewrite Hb.
  rewrite length_take. lia.
Qed.

Lemma py_take_subseteq {A} (n : Z) (l : list A) : py_take n l ⊆ l.
Proof. unfold py_take. destruct (0 <=? n); apply subseteq_take. Qed.

Lemma py_take_sublist {A} (n : Z) (l : list A) : py_take n l `sublist_of` l.
Proof. unfold py_take. destruct (0 <=? n); apply sublist_take. Qed.

Lemma list_filter_sublist {A} (P : A -> bool) (l : list A) :
  List.filter P l `sublist_of` l.
Proof.
  induction l as [|x l IH]; simpl; [done|]. destruct (P x); by constructor.
Qed.

(** The deduplication loop of the primary path computes the first-seen
    deduplication of the places with a visible name whose key is not yet
    seen. *)
Lemma primary_loop_spec pois seen filtered :
  primary_loop pois seen filtered
  = (filtered
     ++ keep_first poi_key
          (List.filter
             (fun p => (nonempty (strip (poi_name p))
                        && bool_decide (poi_key p ∉ seen))%bool) pois))%list.
Proof.
  revert seen filtered. induction pois as [|p pois IH]; intros seen filtered.
  { simpl. by rewrite app_nil_r. }
  cbn [primary_loop List.filter].
  destruct (nonempty (strip (poi_name p))) eqn:Hname; cbn [negb andb]; [|apply IH].
  change (lower (strip (poi_name p))) with (poi_key p).
  destruct (decide (poi_key p ∈ seen)) as [Hin|Hnew].
  - rewrite bool_decide_eq_false_2 by (by intros ?). apply IH.
  - rewrite bool_decide_eq_true_2 by done. rewrite IH, <- app_assoc.
    cbn [keep_first app]. do 2 f_equal.
    rewrite <- (keep_first_filter poi_key (fun k => negb (String.eqb k (poi_key p)))).
    f_equal. rewrite filter_filter_and. apply List.filter_ext. intros q.
    destruct (nonempty (strip (poi_name q))); [|done]. cbn [andb].
    destruct (String.eqb (poi_key q) (poi_key p)) eqn:E.
    + apply String.eqb_eq in E. rewrite E.
      rewrite bool_decide_eq_false_2; [by rewrite andb_false_r|].
      intros Hq. apply Hq. apply elem_of_union. right. by apply elem_of_singleton.
    + apply String.eqb_neq in E. rewrite andb_true_r.
      apply bool_decide_ext. rewrite not_elem_of_union, not_elem_of_singleton.
      tauto.
Qed.

Lemma filter_visible_unseen (l : list poi) :
  List.filter (fun p => (nonempty (strip (poi_name p))
                         && bool_decide (poi_key p ∉ (∅ : gset string)))%bool) l
  = List.filter (fun p => nonempty (strip (poi_name p))) l.
Proof.
  apply List.filter_ext. intros p.
  rewrite bool_decide_eq_true_2 by apply not_elem_of_empty. apply andb_true_r.
Qed.

Lemma primary_path_eq W lat lon radius limit :
  fst (fetch_pois_opentripmap W lat lon radius limit) <> [] ->
  fetch_pois W lat lon radius limit
  = (py_take limit
       (keep_first poi_key
          (List.filter (fun p => nonempty (strip (poi_name p)))
             (List.map ft_entry (otm_radius W lat lon radius limit)))),
     OtmRadius lat lon radius limit
       :: detail_requests (otm_radius W lat lon radius limit)).
Proof.
  unfold fetch_pois. rewrite fetch_pois_opentripmap_spec.
  destruct (OPENTRIPMAP_API_KEY W); cbn [fst]; [|done].
  intros Hne.
  destruct (List.map ft_entry (otm_radius W lat lon radius limit)) as [|p pois] eqn:E;
    [done|].
  cbv beta iota zeta delta [io_bind io_ret request].
  rewrite primary_loop_spec, filter_visible_unseen, app_nil_r. done.
Qed.

(** X7: when the primary provider answers with at least one place, the
    result is made of its answer alone and Overpass is not asked: the
    places whose trimmed name is not empty, deduplicated by trimmed lowered
    name in first-seen order, cut by [[:limit]]; this holds even when
    nothing is left of the answer.  The requests are the radius request
    and then one detail request for every feature with an [xid]. *)
Theorem primary_path_result W lat lon radius limit :
  fst (fetch_pois_opentripmap W lat lon radius limit) <> [] ->
  fetch_pois W lat lon radius limit
  = (py_take limit
       (keep_first poi_key
          (List.filter (fun p => nonempty (strip (poi_name p)))
             (List.map ft_entry (otm_radius W lat lon radius limit)))),
     OtmRadius lat lon radius limit
       :: detail_requests (otm_radius W lat lon radius limit)).
Proof. apply primary_path_eq. Qed.

Lemma primary_path_result_witness :
  List.map poi_name (fst (fetch_pois Demo2.world1 (Fin 15) (Fin 74) 2000 8))
  = ["Fort Aguada"; "Goa State Museum"; "Kala Academy"]
  /\ snd (fetch_pois Demo2.world1 (Fin 15) (Fin 74) 2000 8)
     = [OtmRadius (Fin 15) (Fin 74) 2000 8; OtmXid "N100"; OtmXid "W200"; OtmXid "N300"].
Proof.
  rewrite (primary_path_result Demo2.world1 (Fin 15) (Fin 74) 2000 8);
    [split; reflexivity|].
  discriminate.
Defined.

(** X8: with a limit that is not negative, [fetch_pois] returns at most
    [limit] places, on either path. *)
Theorem fetch_pois_at_most_limit W lat lon radius limit :
  0 <= limit ->
  Z.of_nat (length (fst (fetch_pois W lat lon radius limit))) <= limit.
Proof.
  intros Hl. unfold fetch_pois. rewrite io_bind_fst.
  destruct (fst (fetch_pois_opentripmap W lat lon radius limit)) as [|p pois].
  - rewrite io_bind_fst.
    destruct (fst (fetch_pois_overpass W lat lon radius (Z.max limit 12))) as [|c cs].
    + simpl. lia.
    + cbn [io_ret fst]. by apply py_take_length.
  - cbn [io_ret fst]. by apply py_take_length.
Qed.

Lemma fetch_pois_at_most_limit_witness :
  Z.of_nat (length (fst (fetch_pois Demo.world0 (Fin 15) (Fin 74) 2000 3))) <= 3.
Proof. apply fetch_pois_at_most_limit. lia. Defined.

(** X9: no two places returned by [fetch_pois] have names that agree once
    trimmed and lowered, whichever path answered. *)
Theorem fetch_pois_distinct W lat lon radius limit i j p q :
  fst (fetch_pois W lat lon radius limit) !! i = Some p ->
  fst (fetch_pois W lat lon radius limit) !! j = Some q ->
  lower (strip (poi_name p)) = lower (strip (poi_name q)) ->
  i = j.
Proof.
  intros Hi Hj Hk.
  pose proof (fetch_pois_keys W lat lon radius limit) as Hnd.
  apply (NoDup_lookup _ i j (poi_key p) Hnd).
  - change (List.map poi_key ?l) with (poi_key <$> l). by rewrite list_lookup_fmap, Hi.
  - change (List.map poi_key ?l) with (poi_key <$> l). rewrite list_lookup_fmap, Hj.
    simpl. unfold poi_key, name_key. by rewrite Hk.
Qed.

Lemma fetch_pois_distinct_witness :
  fst (fetch_pois Demo2.world1 (Fin 15) (Fin 74) 2000 8) !! 0%nat
  = Some (MkPoi "Fort Aguada" "fortifications" (Some (Fin 120)))
  /\ (0 = 0)%nat.
Proof.
  split; [reflexivity|].
  apply (fetch_pois_distinct Demo2.world1 (Fin 15) (Fin 74) 2000 8 0 0
           (MkPoi "Fort Aguada" "fortifications" (Some (Fin 120)))
           (MkPoi "Fort Aguada" "fortifications" (Some (Fin 120))));
    reflexivity.
Defined.

(** X10: [fetch_pois] invents nothing and returns no place without a
    name: every place it returns has a non-empty name and is either a
    place of the primary provider's answer, as it came, or the place made of
    a named element of the Overpass answer. *)
Theorem fetch_pois_provenance W lat lon radius limit p :
  p ∈ fst (fetch_pois W lat lon radius limit) ->
  poi_name p <> ""
  /\ (p ∈ List.map ft_entry (otm_radius W lat lon radius limit)
      \/ exists e, e ∈ default [] (overpass W lat lon radius (Z.max limit 12))
           /\ named_poi e = Some p).
Proof.
  destruct (fst (fetch_pois_opentripmap W lat lon radius limit)) as [|p0 pois] eqn:E.
  - unfold fetch_pois. rewrite io_bind_fst, E.
    rewrite fetch_pois_overpass_spec by lia. unfold io_bind.
    set (cands := spec_candidates _ _).
    destruct cands as [|c cs] eqn:Ec.
    { cbn [io_ret fst]. by intros ?%elem_of_nil. }
    cbn [io_ret fst]. rewrite <- Ec. intros Hp%py_take_subseteq.
    rewrite sort_by_perm in Hp. subst cands. unfold spec_candidates in Hp.
    apply subseteq_take in Hp.
    apply (sublist_subseteq _ _ (keep_first_sublist poi_key _)) in Hp.
    apply list_elem_of_omap in Hp as (e & He & Hn).
    split; [|right; eauto].
    unfold named_poi in Hn. destruct (nonempty _) eqn:Hne; [|done].
    injection Hn as <-. simpl. by destruct (default "" _).
  - rewrite primary_path_eq by (by rewrite E). cbn [fst].
    intros Hp%py_take_subseteq.
    apply (sublist_subseteq _ _ (keep_first_sublist poi_key _)) in Hp.
    apply list_elem_of_In, filter_In in Hp as [Hin Hne]. apply list_elem_of_In in Hin.
    split; [|by left]. intros Hn. by rewrite Hn in Hne.
Qed.

Lemma fetch_pois_provenance_witness :
  poi_name (MkPoi "Kala Academy" "theatres" None) <> ""
  /\ MkPoi "Kala Academy" "theatres" None
     ∈ List.map ft_entry (otm_radius Demo2.world1 (Fin 15) (Fin 74) 2000 8).
Proof.
  destruct (fetch_pois_provenance Demo2.world1 (Fin 15) (Fin 74) 2000 8
              (MkPoi "Kala Academy" "theatres" None)) as [Hn Hsrc].
  - vm_compute. do 2 right. left.
  - split; [exact Hn|]. vm_compute. do 4 right. left.
Defined.

Lemma overpass_loop_first limit el :
  limit <= 0 ->
  overpass_loop limit el ∅ [] = firstn 1 (omap named_poi el).
Proof.
  intros Hl. induction el as [|e el IH]; [done|].
  cbn [overpass_loop omap list_omap]. unfold named_poi at 1.
  destruct (nonempty (default "" (el_tags e !! "name"))); cbn [negb]; [|done].
  destruct (decide (_ ∈ ∅)) as [Hin|_]; [by apply elem_of_empty in Hin|].
  cbn [app length firstn].
  destruct (_ >=? limit) eqn:Hfull; [done|].
  rewrite Z.geb_leb in Hfull. apply Z.leb_gt in Hfull. lia.
Qed.

(** X11: asked for no result, or for a negative number of results,
    [fetch_pois_overpass] still returns one: the first named element of
    the answer, because the limit is tested only after an element has been
    taken. *)
Theorem overpass_limit_below_one W lat lon radius limit :
  limit <= 0 ->
  fst (fetch_pois_overpass W lat lon radius limit)
  = firstn 1 (omap named_poi (default [] (overpass W lat lon radius limit))).
Proof.
  intros Hl. unfold fetch_pois_overpass. rewrite io_bind_fst. cbn [request fst io_ret].
  destruct (overpass W lat lon radius limit) as [el|]; [|done].
  by apply overpass_loop_first.
Qed.

Lemma overpass_limit_below_one_witness :
  List.map poi_name (fst (fetch_pois_overpass Demo.world0 (Fin 15) (Fin 74) 2000 0))
  = ["Fort Aguada"].
Proof.
  rewrite (overpass_limit_below_one Demo.world0 (Fin 15) (Fin 74) 2000 0); [reflexivity|lia].
Defined.

(** ** Weather notes *)

Lemma fge_10_2 x : fge x 10 = true -> fge x 2 = true.
Proof.
  destruct x as [q| | |]; simpl; try done.
  rewrite !Qle_bool_iff. intros H. eapply Qle_trans; [|exact H]. done.
Qed.

(** X12: a day inside the forecast gets exactly one precipitation note
    and a day beyond it none; a [null] value counts as no rain and gives the
    good-weather note; and the rain flag that keeps outdoor places away is
    set exactly on the days whose note announces heavy rain or a chance of
    rain. *)
Theorem precipitation_note_and_rain precip i :
  (precip !! i = None -> precip_part precip i = [])
  /\ (forall v, precip !! i = Some v -> exists msg, precip_part precip i = [msg])
  /\ (precip !! i = Some JNull -> precip_part precip i = ["Good weather for walking"])
  /\ (rainy_day precip i = true <->
      precip_part precip i = ["Heavy rain expected — favor indoor activities"]
      \/ precip_part precip i = ["Chance of rain — have indoor alternatives"]).
Proof.
  unfold precip_part, rainy_day.
  destruct (precip !! i) as [[x|]|]; simpl.
  - split_and!; [done| |done|].
    + intros _ _. repeat case_match; eauto.
    + destruct (fge x 10) eqn:H10.
      * rewrite (fge_10_2 x H10). split; [by left|done].
      * destruct (fge x 2); [split; [by right|done]|].
        split; [done|]. destruct (fgt x 0); by intros [|].
  - split_and!; [done|eauto|done|]. split; [done|by intros [|]].
  - split_and!; [done|done|done|]. split; [done|by intros [|]].
Qed.

(** X13: the note of a day is never empty and contains neither a
    vertical bar nor a line break, so it cannot break the row of the table
    it is written in. *)
Theorem note_is_table_safe precip tmax tmin i :
  let note := weather_note_for_day precip tmax tmin i in
  note <> "" /\ contains "|" note = false /\ contains nl note = false.
Proof.
  unfold weather_note_for_day, note_parts, precip_part, temp_part.
  destruct (precip !! i) as [v|];
    [set (pr := default (Fin 0) (to_float v));
     destruct (fge pr 10), (fge pr 2), (fgt pr 0)|];
    (destruct (tmax !! i) as [a|]; [destruct (tmin !! i) as [b|];
       [destruct (to_float a) as [mx|], (to_float b) as [mn|];
          [destruct (fge mx 30), (fle mx 15)| | |]|]|]);
    by vm_compute.
Qed.

(** ** More on the day planner *)

Section PlannerFacts.

Variable pool : list pool_entry.
Variables precip tmax tmin : list jnum.
Variable daily_limit : Z.
Variable isoformat : Z -> string.
Variable sd : Z.

Local Abbreviation rr_body := (rr_body pool).
Local Abbreviation rr_loop := (rr_loop pool daily_limit).
Local Abbreviation rr_bound := (rr_bound pool).
Local Abbreviation rr_guard := (rr_guard pool daily_limit).
Local Abbreviation backfill := (backfill daily_limit).
Local Abbreviation select_day := (select_day pool daily_limit).
Local Abbreviation plan := (plan pool precip tmax tmin daily_limit isoformat sd).
Local Abbreviation ok n := (plan_ok_all pool precip tmax tmin daily_limit isoformat sd n).


Lemma plan_assigned_elem n name :
  name ∈ p_assigned (plan n) <->
  exists d chosen, p_days (plan n) !! d = Some chosen /\ name ∈ chosen.
Proof.
  rewrite (pk_assigned _ _ _ _ _ _ _ _ _ (ok n)), elem_of_list_to_set.
  rewrite list_elem_of_In, in_concat. split.
  - intros (chosen & Hc%list_elem_of_In & Hn%list_elem_of_In).
    apply list_elem_of_lookup_1 in Hc as [d Hd]. eauto.
  - intros (d & chosen & Hd & Hn). exists chosen.
    split; apply list_elem_of_In; [by eapply list_elem_of_lookup_2|done].
Qed.

Lemma plan_assigned_S i :
  p_assigned (plan (S i))
  = assigned (select_day (rainy_day precip i) (p_idx (plan i)) (p_assigned (plan i))).
Proof. by rewrite plan_S. Qed.

Lemma plan_idx_S i :
  p_idx (plan (S i))
  = idx (select_day (rainy_day precip i) (p_idx (plan i)) (p_assigned (plan i))).
Proof. by rewrite plan_S. Qed.

(** *** The backfill *)

Lemma backfill_assigned_mono ps s : assigned s ⊆ assigned (backfill ps s).
Proof.
  revert s. induction ps as [|p ps IH]; intros s; simpl; [done|].
  destruct (decide (pe_name p ∈ assigned s)); [apply IH|].
  destruct (_ >=? _); simpl.
  - apply union_subseteq_l.
  - etrans; [|apply IH]. simpl. apply union_subseteq_l.
Qed.

Lemma backfill_idx ps s : idx (backfill ps s) = idx s.
Proof.
  revert s. induction ps as [|p ps IH]; intros s; simpl; [done|].
  destruct (decide (pe_name p ∈ assigned s)); [apply IH|].
  destruct (_ >=? _); simpl; [done|]. by rewrite IH.
Qed.

(** The backfill stops short of the limit only when it has seen the whole
    pool assigned. *)
Lemma backfill_full_or_all ps s :
  daily_limit <= Z.of_nat (length (day_selected (backfill ps s)))
  \/ forall p, p ∈ ps -> pe_name p ∈ assigned (backfill ps s).
Proof.
  revert s. induction ps as [|p ps IH]; intros s; simpl.
  { right. by intros p ?%elem_of_nil. }
  destruct (decide (pe_name p ∈ assigned s)) as [Hin|Hnew].
  - destruct (IH s) as [Hfull|Hall]; [by left|right].
    intros q [->|Hq]%elem_of_cons; [|by apply Hall].
    by apply backfill_assigned_mono.
  - destruct (_ >=? _) eqn:Hfull.
    + left. rewrite Z.geb_leb in Hfull. by apply Z.leb_le in Hfull.
    + destruct (IH (take_poi (pe_name p) s)) as [Hf|Hall]; [by left|right].
      intros q [->|Hq]%elem_of_cons; [|by apply Hall].
      apply backfill_assigned_mono. simpl. apply elem_of_union. right.
      by apply elem_of_singleton.
Qed.

Lemma select_day_full_or_all rainy cursor taken :
  let s := select_day rainy cursor taken in
  Z.of_nat (length (day_selected s)) = Z.max 0 daily_limit
  \/ forall p, p ∈ pool -> pe_name p ∈ assigned s.
Proof.
  intros s. pose proof (select_day_ok pool daily_limit rainy cursor taken) as Hok.
  fold s in Hok. pose proof (ok_len _ _ _ _ Hok) as Hlen.
  subst s. unfold select_day in *.
  destruct (round_robin_result pool daily_limit rainy cursor taken) as (s1 & Hrun & Hok1).
  rewrite Hrun in *. simpl in *.
  destruct (_ <? _) eqn:Hlt.
  - destruct (backfill_full_or_all pool s1) as [Hfull|Hall]; [left; lia|by right].
  - apply Z.ltb_ge in Hlt. left. lia.
Qed.

(** *** The cursor *)

Lemma rr_loop_idx fuel rainy s final :
  rr_loop fuel rainy s = Some final ->
  (idx final + attempts s = idx s + attempts final)%nat.
Proof.
  revert s. induction fuel as [|fuel IH]; intros s; simpl.
  - destruct (rr_guard s); [done|]. by intros [= <-].
  - destruct (rr_guard s); [|by intros [= <-]].
    pose proof (rr_body_idx pool rainy s) as Hi.
    pose proof (rr_body_attempts pool rainy s) as Ha.
    destruct (rr_body rainy s) as [s'|s']; simpl in Hi, Ha.
    + intros H%IH. lia.
    + intros [= <-]. lia.
Qed.

Lemma select_day_idx rainy cursor taken :
  (cursor <= idx (select_day rainy cursor taken) <= cursor + rr_bound)%nat.
Proof.
  unfold select_day.
  destruct (rr_loop_stops pool daily_limit rr_bound rainy (MkSel cursor 0 [] taken))
    as (s1 & Hrun & Hlo & Hhi); [simpl; lia|].
  rewrite Hrun. simpl in *. apply rr_loop_idx in Hrun. simpl in Hrun.
  destruct (_ <? _); rewrite ?backfill_idx; lia.
Qed.

End PlannerFacts.

Lemma concat_length_le {A} (m : nat) (ls : list (list A)) :
  Forall (fun c => (length c <= m)%nat) ls ->
  (length (concat ls) <= length ls * m)%nat.
Proof.
  induction 1 as [|c ls Hc _ IH]; simpl; [lia|]. rewrite length_app. lia.
Qed.

Lemma concat_length_eq {A} (m : nat) (ls : list (list A)) :
  Forall (fun c => length c = m) ls ->
  length (concat ls) = (length ls * m)%nat.
Proof.
  induction 1 as [|c ls Hc _ IH]; simpl; [lia|]. rewrite length_app. lia.
Qed.

Section PlannerTheorems.

Variable pool : list pool_entry.
Variables precip tmax tmin : list jnum.
Variable daily_limit : Z.
Variable isoformat : Z -> string.
Variable sd : Z.

Local Abbreviation plan := (plan pool precip tmax tmin daily_limit isoformat sd).
Local Abbreviation ok n := (plan_ok_all pool precip tmax tmin daily_limit isoformat sd n).


Lemma plan_day_full_or_all num_days i :
  (i < num_days)%nat ->
  exists chosen,
    p_days (plan num_days) !! i = Some chosen
    /\ (Z.of_nat (length chosen) = Z.max 0 daily_limit
        \/ forall p, p ∈ pool -> pe_name p ∈ p_assigned (plan (S i))).
Proof.
  intros Hi. eexists. split; [by apply plan_day_lookup|].
  rewrite plan_assigned_S. apply select_day_full_or_all.
Qed.

(** X15: a day gets fewer than [daily_limit] POIs only when the pool is
    used up: after any day, either the day holds exactly [daily_limit]
    selected names (none for a limit that is not positive), or every name of
    the pool is assigned. *)
Theorem day_full_or_pool_used_up num_days i :
  (i < num_days)%nat ->
  exists chosen,
    p_days (plan num_days) !! i = Some chosen
    /\ (Z.of_nat (length chosen) = Z.max 0 daily_limit
        \/ forall p, p ∈ pool -> pe_name p ∈ p_assigned (plan (S i))).
Proof. apply plan_day_full_or_all. Qed.

Lemma plan_total_selected num_days :
  NoDup (List.map pe_name pool) ->
  Z.of_nat (length (concat (p_days (plan num_days))))
  = Z.min (Z.of_nat num_days * Z.max 0 daily_limit) (Z.of_nat (length pool)).
Proof.
  intros Hnames.
  destruct (ok num_days) as [Hdays _ Hnd Hassigned Heach].
  set (m := Z.to_nat (Z.max 0 daily_limit)).
  assert (length (concat (p_days (plan num_days))) <= length pool)%nat as Hpool.
  { rewrite <- (length_map pe_name pool).
    apply NoDup_incl_length; [by apply NoDup_ListNoDup|].
    intros x (c & Hc%list_elem_of_In & Hx%list_elem_of_In)%in_concat.
    rewrite Forall_forall in Heach. destruct (Heach c Hc) as [_ Hp].
    destruct (Hp x Hx) as (p & Hin & <-). apply in_map. by apply list_elem_of_In. }
  assert (length (concat (p_days (plan num_days))) <= num_days * m)%nat as Hmax.
  { pose proof (concat_length_le m (p_days (plan num_days))) as H.
    rewrite Hdays in H. apply H.
    eapply Forall_impl; [exact Heach|]. intros c [Hc _]. simpl. lia. }
  destruct (decide (Forall (fun c : list string => length c = m) (p_days (plan num_days))))
    as [Hall|Hshort].
  - apply concat_length_eq in Hall. rewrite Hdays in Hall. lia.
  - apply not_Forall_Exists in Hshort; [|apply _].
    apply Exists_exists in Hshort as (c & Hc & Hne). simpl in Hne.
    apply list_elem_of_lookup_1 in Hc as [i Hi].
    assert (i < num_days)%nat as Hlt by (rewrite <- Hdays; by eapply lookup_lt_Some).
    destruct (plan_day_full_or_all num_days i Hlt) as (c' & Hc' & [Hfull|Hused]).
    { rewrite Hi in Hc'. injection Hc' as <-. lia. }
    assert (length pool <= length (concat (p_days (plan num_days))))%nat.
    { rewrite <- (length_map pe_name pool).
      apply NoDup_incl_length; [by apply NoDup_ListNoDup|].
      intros x (p & <- & Hp%list_elem_of_In)%in_map_iff.
      apply list_elem_of_In, (elem_of_list_to_set (C:=gset string)).
      rewrite <- Hassigned.
      apply (plan_assigned_mono _ _ _ _ _ _ _ (S i) num_days); [lia|]. by apply Hused. }
    lia.
Qed.

(** X16: when the names of the pool are distinct, the days of a plan
    together select [min(num_days * daily_limit, len(pool))] places (with
    a limit that is not positive counting as zero), whatever the weather:
    rain changes which place goes to which day, not how many are used. *)
Theorem places_used_in_total num_days :
  NoDup (List.map pe_name pool) ->
  Z.of_nat (length (concat (p_days (plan num_days))))
  = Z.min (Z.of_nat num_days * Z.max 0 daily_limit) (Z.of_nat (length pool)).
Proof. apply plan_total_selected. Qed.

(** X17: the round-robin cursor only moves forward, by at most
    [2 * max(1, len(pool))] positions a day, so a plan of [num_days] days
    probes the pool at most [num_days * 2 * max(1, len(pool))] times in its
    round-robin passes. *)
Theorem cursor_bounded num_days :
  (p_idx (plan num_days) <= p_idx (plan (S num_days)))%nat
  /\ (p_idx (plan (S num_days)) <= p_idx (plan num_days) + 2 * Nat.max 1 (length pool))%nat
  /\ (p_idx (plan num_days) <= num_days * (2 * Nat.max 1 (length pool)))%nat.
Proof.
  assert (forall n, p_idx (plan n) <= p_idx (plan (S n))
                    <= p_idx (plan n) + 2 * Nat.max 1 (length pool))%nat as Hstep.
  { intros n. rewrite plan_idx_S.
    pose proof (select_day_idx pool daily_limit (rainy_day precip n) (p_idx (plan n))
                  (p_assigned (plan n))) as H.
    unfold rr_bound in H. lia. }
  split_and!; [apply Hstep..|].
  induction num_days as [|n IH]; [simpl; lia|].
  specialize (Hstep n). lia.
Qed.

(** X18: the set of assigned names never shrinks from one day to the
    next, it holds exactly the names selected so far, and every one of them
    is the name of a place of the pool. *)
Theorem assigned_set_grows n m :
  (n <= m)%nat ->
  p_assigned (plan n) ⊆ p_assigned (plan m)
  /\ (forall name,
        name ∈ p_assigned (plan m) <->
        exists d chosen, p_days (plan m) !! d = Some chosen /\ name ∈ chosen)
  /\ (forall name, name ∈ p_assigned (plan m) ->
        exists p, p ∈ pool /\ pe_name p = name).
Proof.
  intros Hle. split_and!.
  - by apply plan_assigned_mono.
  - apply plan_assigned_elem.
  - intros name (d & chosen & Hd & Hn)%plan_assigned_elem.
    pose proof (pk_each _ _ _ _ _ _ _ _ _ (ok m)) as Heach.
    rewrite Forall_forall in Heach.
    destruct (Heach chosen) as [_ Hp]; [by eapply list_elem_of_lookup_2|]. by apply Hp.
Qed.

(** X19: the rows of the first days do not depend on how many days
    follow: for the same pool and forecast, the plan of [m] days begins
    with the rows of the plan of [n <= m] days. *)
Theorem earlier_days_unchanged n m :
  (n <= m)%nat ->
  take n (p_rows (plan m)) = p_rows (plan n)
  /\ take n (p_days (plan m)) = p_days (plan n).
Proof.
  intros Hle. split; [|by apply plan_days_prefix].
  rewrite (pk_rows _ _ _ _ _ _ _ _ _ (ok m)), (pk_rows _ _ _ _ _ _ _ _ _ (ok n)).
  rewrite <- (plan_days_prefix _ _ _ _ _ _ _ n m Hle).
  apply list_eq. intros i. rewrite !list_lookup_imap.
  destruct (decide (i < n)%nat) as [Hi|Hi].
  - by rewrite !lookup_take_lt, list_lookup_imap by lia.
  - by rewrite !lookup_take_ge by lia.
Qed.

End PlannerTheorems.


Lemma day_full_or_pool_used_up_witness :
  exists chosen,
    p_days (plan Demo.pool6 [] [] [] 4 pretty 0 2) !! 1%nat = Some chosen
    /\ (Z.of_nat (length chosen) = Z.max 0 4
        \/ forall p, p ∈ Demo.pool6 ->
             pe_name p ∈ p_assigned (plan Demo.pool6 [] [] [] 4 pretty 0 2)).
Proof. apply (day_full_or_pool_used_up Demo.pool6 [] [] [] 4 pretty 0 2 1). lia. Defined.

Lemma places_used_in_total_witness :
  Z.of_nat (length (concat (p_days (plan Demo.pool6 [JNum (Fin 5)] [] [] 2 pretty 0 3))))
  = Z.min (3 * Z.max 0 2) 6.
Proof.
  apply (places_used_in_total Demo.pool6 [JNum (Fin 5)] [] [] 2 pretty 0 3).
  apply (bool_decide_unpack (NoDup _)). vm_compute. exact I.
Defined.

Lemma assigned_set_grows_witness :
  p_assigned (plan Demo.pool6 [] [] [] 2 pretty 0 1)
  ⊆ p_assigned (plan Demo.pool6 [] [] [] 2 pretty 0 3).
Proof.
  destruct (assigned_set_grows Demo.pool6 [] [] [] 2 pretty 0 1 3) as [H _]; [lia|exact H].
Defined.

Lemma earlier_days_unchanged_witness :
  take 1 (p_rows (plan Demo.pool6 [] [] [] 2 pretty 0 3))
  = p_rows (plan Demo.pool6 [] [] [] 2 pretty 0 1).
Proof.
  destruct (earlier_days_unchanged Demo.pool6 [] [] [] 2 pretty 0 1 3) as [H _];
    [lia|exact H].
Defined.

(** ** The requests of the tools *)

Section ToolLogs.

Variable W : world.

Lemma fetch_pois_log lat lon radius limit :
  snd (fetch_pois W lat lon radius limit)
  = (snd (fetch_pois_opentripmap W lat lon radius limit)
     ++ match fst (fetch_pois_opentripmap W lat lon radius limit) with
        | [] => [OverpassQuery lat lon radius (Z.max limit 12)]
        | _ :: _ => []
        end)%list.
Proof.
  unfold fetch_pois. rewrite io_bind_snd. f_equal.
  destruct (fst (fetch_pois_opentripmap W lat lon radius limit)); [|done].
    rewrite io_bind_snd.
    assert (forall l : list poi,
              snd (match l with [] => io_ret [] | _ :: _ =>
                     io_ret (py_take limit (sort_by score l)) end) = []) as ->
      by (by intros []).
    by rewrite app_nil_r.
Qed.

Lemma fetch_weather_log lat lon s e :
  snd (fetch_weather W lat lon s e) = [OpenMeteo lat lon s e].
Proof. done. Qed.

Lemma itinerary_agent_log city start_date end_date daily_limit :
  snd (itinerary_agent W city start_date end_date daily_limit)
  = (snd (geocode_city W city)
     ++ match fst (geocode_city W city), parse_date W start_date, parse_date W end_date with
        | Some g, Some sd, Some ed =>
            if ed <? sd then []
            else
              snd (fetch_pois W (g_lat g) (g_lon g) 3500
                     (Z.max 20 (daily_limit * (ed - sd + 1) * 2)))
              ++ [OpenMeteo (g_lat g) (g_lon g) (isoformat W sd) (isoformat W ed)]
        | _, _, _ => []
        end)%list.
Proof.
  unfold itinerary_agent. rewrite io_bind_snd. f_equal.
  destruct (fst (geocode_city W city)) as [g|]; [|done].
  destruct (parse_date W start_date) as [sd|]; [|done].
  destruct (parse_date W end_date) as [ed|]; [|done].
  destruct (ed <? sd); [done|].
  rewrite io_bind_snd. by f_equal.
Qed.

Lemma poi_agent_log city radius limit :
  snd (poi_agent W city radius limit)
  = (snd (geocode_city W city)
     ++ match fst (geocode_city W city) with
        | Some g => snd (fetch_pois W (g_lat g) (g_lon g) radius limit)
        | None => []
        end)%list.
Proof.
  unfold poi_agent. rewrite io_bind_snd. f_equal.
  destruct (fst (geocode_city W city)) as [g|]; [|done].
  rewrite io_bind_snd.
  destruct (fst (fetch_pois W (g_lat g) (g_lon g) radius limit));
    cbn [io_ret snd]; by rewrite app_nil_r.
Qed.

Lemma weather_agent_log city start_date end_date :
  let s := default (isoformat W (today W)) (given start_date) in
  let e := default s (given end_date) in
  snd (weather_agent W city start_date end_date)
  = (snd (geocode_city W city)
     ++ match fst (geocode_city W city), parse_date W s, parse_date W e with
        | Some g, Some sd, Some ed =>
            [OpenMeteo (g_lat g) (g_lon g) (isoformat W sd) (isoformat W ed)]
        | _, _, _ => []
        end)%list.
Proof.
  intros s e. unfold weather_agent. rewrite io_bind_snd. f_equal.
  destruct (fst (geocode_city W city)) as [g|]; [|done].
  fold s. fold e.
  destruct (parse_date W s) as [sd|]; [|done].
  destruct (parse_date W e) as [ed|]; [|done].
  rewrite io_bind_snd, fetch_weather_log.
  destruct (weather_is_empty _); cbn [io_ret snd]; by rewrite app_nil_r.
Qed.

Lemma nominatim_not_otm e : is_nominatim e = true -> is_otm e = false.
Proof. by destruct e. Qed.

Lemma geocode_city_no_key place :
  OPENTRIPMAP_API_KEY W = false ->
  Forall (fun e => is_otm e = false) (snd (geocode_city W place)).
Proof.
  intros Hkey. destruct (geocode_city_log W place) as (l & -> & _ & Hl).
  rewrite Hkey, andb_false_r. simpl.
  eapply Forall_impl; [done|]. apply nominatim_not_otm.
Qed.

Lemma fetch_pois_no_key lat lon radius limit :
  OPENTRIPMAP_API_KEY W = false ->
  snd (fetch_pois W lat lon radius limit) = [OverpassQuery lat lon radius (Z.max limit 12)].
Proof.
  intros Hkey. rewrite fetch_pois_log. unfold fetch_pois_opentripmap. by rewrite Hkey.
Qed.

End ToolLogs.

(** X20: without an OpenTripMap key none of the three tools sends a
    request that needs the key; POIs then cost exactly one Overpass
    request. *)
Theorem no_key_no_opentripmap_request W city (s e : option string) (radius limit : Z)
    (start_date end_date : string) (daily_limit : Z) :
  OPENTRIPMAP_API_KEY W = false ->
  Forall (fun ev => is_otm ev = false) (snd (weather_agent W city s e))
  /\ Forall (fun ev => is_otm ev = false) (snd (poi_agent W city radius limit))
  /\ Forall (fun ev => is_otm ev = false)
       (snd (itinerary_agent W city start_date end_date daily_limit))
  /\ (forall lat lon,
        snd (fetch_pois W lat lon radius limit)
        = [OverpassQuery lat lon radius (Z.max limit 12)]).
Proof.
  intros Hkey. pose proof (geocode_city_no_key W city Hkey) as Hgeo.
  split_and!.
  - rewrite weather_agent_log. apply Forall_app. split; [done|].
    repeat case_match; by repeat constructor.
  - rewrite poi_agent_log. apply Forall_app. split; [done|].
    case_match; [|constructor]. rewrite fetch_pois_no_key by done. by repeat constructor.
  - rewrite itinerary_agent_log. apply Forall_app. split; [done|].
    repeat case_match; try constructor.
    rewrite fetch_pois_no_key by done. by repeat constructor.
  - intros lat lon. by apply fetch_pois_no_key.
Qed.

Lemma no_key_no_opentripmap_request_witness :
  Forall (fun ev => is_otm ev = false)
    (snd (itinerary_agent Demo.world0 "Goa" "2024-01-10" "2024-01-12" 2)).
Proof.
  destruct (no_key_no_opentripmap_request Demo.world0 "Goa" None None 2000 8
              "2024-01-10" "2024-01-12" 2 eq_refl) as (_ & _ & H & _).
  exact H.
Defined.



Lemma geocode_city_providers W place :
  Forall (fun e => is_forecast e = false /\ is_overpass e = false)
    (snd (geocode_city W place)).
Proof.
  destruct (geocode_city_log W place) as (l & -> & _ & Hl).
  apply Forall_app. split.
  - destruct (_ && _)%bool; by repeat constructor.
  - eapply Forall_impl; [exact Hl|]. by intros [].
Qed.

(** X22: a plan that passes the checks sends the geocoder's requests,
    then those of the POI fetcher, then one forecast request, for the ISO
    form of the two dates: it is the last request and the only one to
    Open-Meteo.  POIs are fetched within 3500 metres with a limit of
    [max(20, daily_limit * num_days * 2)], which is at least 20.  The POI
    fetcher's requests are, with a key, the radius request and one detail
    request for every feature of its answer that has an [xid], and then
    one Overpass request, with that radius and limit, exactly when the
    primary fetcher returned nothing; Overpass is asked by nothing else. *)
Theorem itinerary_requests W city start_date end_date daily_limit g sd ed :
  fst (geocode_city W city) = Some g ->
  parse_date W start_date = Some sd ->
  parse_date W end_date = Some ed ->
  sd <= ed ->
  let limit := Z.max 20 (daily_limit * (ed - sd + 1) * 2) in
  let primary := fst (fetch_pois_opentripmap W (g_lat g) (g_lon g) 3500 limit) in
  let fallback :=
    match primary with
    | [] => [OverpassQuery (g_lat g) (g_lon g) 3500 limit]
    | _ :: _ => []
    end in
  let pois_log := snd (fetch_pois W (g_lat g) (g_lon g) 3500 limit) in
  let before := (snd (geocode_city W city) ++ pois_log)%list in
  snd (itinerary_agent W city start_date end_date daily_limit)
  = (before ++ [OpenMeteo (g_lat g) (g_lon g) (isoformat W sd) (isoformat W ed)])%list
  /\ pois_log
     = ((if OPENTRIPMAP_API_KEY W
         then OtmRadius (g_lat g) (g_lon g) 3500 limit
                :: detail_requests (otm_radius W (g_lat g) (g_lon g) 3500 limit)
         else []) ++ fallback)%list
  /\ Forall (fun e => is_forecast e = false) before
  /\ List.filter is_overpass before = fallback
  /\ 20 <= limit.
Proof.
  intros Hg Hsd Hed Hle limit primary fallback pois_log before.
  pose proof (geocode_city_providers W city) as Hgeo.
  pose proof (fetch_pois_opentripmap_providers W (g_lat g) (g_lon g) 3500 limit) as Hotm.
  assert (List.filter is_overpass (snd (geocode_city W city)) = []) as Hgo.
  { apply filter_none. eapply Forall_impl; [exact Hgeo|]. by intros e [_ ?]. }
  assert (pois_log
          = (snd (fetch_pois_opentripmap W (g_lat g) (g_lon g) 3500 limit)
             ++ fallback)%list) as Hlog.
  { subst pois_log fallback primary. rewrite fetch_pois_log.
    by replace (Z.max limit 12) with limit by lia. }
  split_and!; [| | | |lia].
  - rewrite itinerary_agent_log, Hg, Hsd, Hed.
    apply Z.ltb_ge in Hle. rewrite Hle. fold limit. subst before pois_log.
    by rewrite <- !app_assoc.
  - rewrite Hlog. f_equal. rewrite fetch_pois_opentripmap_spec.
    by destruct (OPENTRIPMAP_API_KEY W).
  - subst before. rewrite Hlog. apply Forall_app. split; [|apply Forall_app; split].
    + eapply Forall_impl; [exact Hgeo|]. by intros e [? _].
    + eapply Forall_impl; [exact Hotm|]. by intros e (_ & _ & ?).
    + subst fallback. destruct primary; by repeat constructor.
  - subst before. rewrite Hlog, !List.filter_app, Hgo.
    rewrite (filter_none is_overpass (snd (fetch_pois_opentripmap _ _ _ _ _)))
      by (eapply Forall_impl; [exact Hotm|]; by intros e (_ & ? & _)).
    subst fallback. by destruct primary.
Qed.

Lemma itinerary_requests_witness :
  snd (itinerary_agent Demo2.world1 "Goa" "2024-01-10" "2024-01-12" 2)
  = [OtmGeoname "Goa";
     OtmRadius (Fin 15) (Fin 74) 3500 20;
     OtmXid "N100"; OtmXid "W200"; OtmXid "N300";
     OpenMeteo (Fin 15) (Fin 74) "738895" "738897"].
Proof.
  destruct (itinerary_requests Demo2.world1 "Goa" "2024-01-10" "2024-01-12" 2
              Demo2.goa 738895 738897) as (H & Hpois & _);
    [reflexivity|reflexivity|reflexivity|lia|].
  rewrite H, Hpois. reflexivity.
Defined.

(** X23: once the place is resolved, [weather_agent] takes today for a
    missing or empty start date and the start date for a missing or empty
    end date; it answers the date error, without a forecast request, when
    one of the two does not parse; otherwise it sends exactly one forecast
    request, also when the end date is before the start date, and answers
    the no-data warning when the forecast is empty. *)
Theorem weather_agent_dates W city start_date end_date g :
  fst (geocode_city W city) = Some g ->
  let s := default (isoformat W (today W)) (given start_date) in
  let e := default s (given end_date) in
  (parse_date W s = None \/ parse_date W e = None ->
     weather_agent W city start_date end_date = (date_error, snd (geocode_city W city)))
  /\ (forall sd ed,
        parse_date W s = Some sd -> parse_date W e = Some ed ->
        snd (weather_agent W city start_date end_date)
        = (snd (geocode_city W city)
           ++ [OpenMeteo (g_lat g) (g_lon g) (isoformat W sd) (isoformat W ed)])%list
        /\ (weather_is_empty
              (fst (fetch_weather W (g_lat g) (g_lon g) (isoformat W sd) (isoformat W ed)))
            = true ->
            fst (weather_agent W city start_date end_date)
            = "WARNING: No weather data for " ++ g_name g ++ " between "
              ++ isoformat W sd ++ " and " ++ isoformat W ed ++ "." ++ " Links: "
              ++ openstreetmap (g_links g) ++ " | " ++ google_maps (g_links g))).
Proof.
  intros Hg s e. split.
  - intros Hbad. rewrite (io_pair (weather_agent _ _ _ _)). f_equal.
    + unfold weather_agent. rewrite io_bind_fst, Hg. fold s. fold e.
      destruct Hbad as [-> | ->]; [done|]. by destruct (parse_date W s).
    + rewrite weather_agent_log, Hg. fold s. fold e.
      destruct Hbad as [-> | ->]; [by rewrite app_nil_r|].
      destruct (parse_date W s); by rewrite app_nil_r.
  - intros sd ed Hsd Hed. split.
    + rewrite weather_agent_log, Hg. fold s. fold e. by rewrite Hsd, Hed.
    + intros Hempty. unfold weather_agent. rewrite io_bind_fst, Hg. fold s. fold e.
      rewrite Hsd, Hed, io_bind_fst, Hempty. done.
Qed.

Lemma weather_agent_dates_witness :
  weather_agent Demo.world0 "Goa" (Some "") (Some "2024-01-10")
  = ("ERROR: Dates must be YYYY-MM-DD.",
     [NominatimSearch "Goa" "LangGraph-Travel-Agent/1.0"]).
Proof.
  destruct (weather_agent_dates Demo.world0 "Goa" (Some "") (Some "2024-01-10")
              Demo.goa eq_refl) as [H _].
  apply H. by left.
Defined.

(** ** Quotas and rain *)

Lemma concat_length_full {A} (m : nat) (ls : list (list A)) :
  Forall (fun c => (length c <= m)%nat) ls ->
  length (concat ls) = (length ls * m)%nat ->
  Forall (fun c => length c = m) ls.
Proof.
  induction 1 as [|c ls Hc Hls IH]; simpl; [constructor|].
  rewrite length_app. intros Hsum.
  pose proof (concat_length_le m ls Hls).
  constructor; [lia|]. apply IH. lia.
Qed.

(** X24: when the names of the pool are distinct and the pool holds at
    least [num_days * daily_limit] places, every day gets exactly
    [daily_limit] of them, rain or not: a rainy day that finds too few
    indoor places is completed from the rest of the pool. *)
Theorem enough_places_fill_every_day pool precip tmax tmin daily_limit isoformat sd
    num_days i chosen :
  NoDup (List.map pe_name pool) ->
  0 <= daily_limit ->
  Z.of_nat num_days * daily_limit <= Z.of_nat (length pool) ->
  p_days (plan pool precip tmax tmin daily_limit isoformat sd num_days) !! i = Some chosen ->
  Z.of_nat (length chosen) = daily_limit.
Proof.
  intros Hnames Hpos Henough Hi.
  pose proof (plan_total_selected pool precip tmax tmin daily_limit isoformat sd
                num_days Hnames) as Htotal.
  destruct (plan_ok_all pool precip tmax tmin daily_limit isoformat sd num_days)
    as [Hdays _ _ _ Heach].
  set (m := Z.to_nat daily_limit).
  assert (Forall (fun c : list string => length c = m)
            (p_days (plan pool precip tmax tmin daily_limit isoformat sd num_days)))
    as Hfull.
  { apply concat_length_full.
    - eapply Forall_impl; [exact Heach|]. intros c [Hc _]. simpl. lia.
    - rewrite Hdays. nia. }
  rewrite Forall_forall in Hfull.
  rewrite (Hfull chosen) by (by eapply list_elem_of_lookup_2). lia.
Qed.

Lemma enough_places_fill_every_day_witness :
  p_days (plan Demo.pool6 [JNum (Fin 5); JNum (Fin 12)] [] [] 3 pretty 0 2) !! 1%nat
  = Some ["Long Beach"; "Night Market"; "Rose Garden"]
  /\ Z.of_nat (length ["Long Beach"; "Night Market"; "Rose Garden"]) = 3.
Proof.
  split; [reflexivity|].
  apply (enough_places_fill_every_day Demo.pool6 [JNum (Fin 5); JNum (Fin 12)] [] [] 3
           pretty 0 2 1 ["Long Beach"; "Night Market"; "Rose Garden"]).
  - apply (bool_decide_unpack (NoDup _)). vm_compute. exact I.
  - lia.
  - vm_compute. discriminate.
  - reflexivity.
Defined.

Section RainIsSoft.

Variable pool : list pool_entry.
Variable daily_limit : Z.
Variable taken : gset string.
Variable cursor : nat.

Local Abbreviation rr_body := (rr_body pool).
Local Abbreviation rr_loop := (rr_loop pool daily_limit).
Local Abbreviation rr_bound := (rr_bound pool).
Local Abbreviation rr_guard := (rr_guard pool daily_limit).
Local Abbreviation window := (rainy_window pool daily_limit taken cursor).

(** One pass of a rainy day's loop over a pool that is not empty: the
    cursor moves on and the window grows by the entry it passed. *)
Lemma rainy_pass t s :
  window t s -> rr_guard s = true -> pool <> [] ->
  exists s', rr_body true s = Next s' /\ window (S t) s'.
Proof.
  intros [Hok Hidx Hatt Hind Hpass] Hg Hne.
  pose proof (rr_body_ok pool daily_limit taken true s Hok Hg) as Hok'.
  apply andb_prop in Hg as [Hlt _]. apply Z.ltb_lt in Hlt.
  assert (0 < length pool)%nat as Hlen by (destruct pool; [done|simpl; lia]).
  unfold rr_body in *.
  set (cur := match pool with [] => None | _ :: _ => _ end) in *.
  assert (cur = pool !! ((cursor + t) mod length pool)%nat) as Hcur.
  { subst cur. destruct pool; [done|]. rewrite Hidx. by f_equal. }
  destruct (lookup_lt_is_Some_2 pool ((cursor + t) mod length pool)%nat) as [p Hp].
  { apply Nat.mod_upper_bound. lia. }
  rewrite Hp in Hcur. rewrite Hcur in *. simpl in *.
  assert (forall s1 : sel,
    day_selected s1 = day_selected s \/
    (pe_is_indoor p = true /\ day_selected s1 = (day_selected s ++ [pe_name p])%list) ->
    (indoor_free taken p = true -> pe_name p ∈ day_selected s1) ->
    idx s1 = S (idx s) -> attempts s1 = S (attempts s) ->
    sel_ok pool daily_limit taken s1 -> window (S t) s1) as Hmk.
  { intros s1 Hsel Hp1 Hi1 Ha1 Hok1. constructor; [done|lia|lia| |].
    - intros n Hn. destruct Hsel as [E|[Hin E]]; rewrite E in Hn.
      + by apply Hind.
      + apply elem_of_app in Hn as [Hn| ->%list_elem_of_singleton]; [by apply Hind|].
        exists p. split_and!; [by eapply list_elem_of_lookup_2|done..].
    - intros j q Hj Hq Hfree.
      destruct (decide (j = t)) as [->|Hjt].
      + rewrite Hp in Hq. injection Hq as <-. by apply Hp1.
      + assert (pe_name q ∈ day_selected s) by (apply (Hpass j q); [lia|done..]).
        destruct Hsel as [E|[_ E]]; rewrite E; [done|]. apply elem_of_app. by left. }
  destruct (decide (pe_name p ∈ assigned s)) as [Hin|Hnew].
  - eexists. split; [done|]. apply Hmk; simpl; try done; [by left|].
    intros [_ Hfree%bool_decide_eq_true_1]%andb_prop.
    rewrite (ok_assigned _ _ _ _ Hok) in Hin.
    apply elem_of_union in Hin as [?|Hin]; [done|].
    by apply elem_of_list_to_set in Hin.
  - simpl in *. destruct (pe_is_indoor p) eqn:Hindoor; simpl in *.
    + eexists. split; [done|]. apply Hmk; simpl; try done; [by right|].
      intros _. apply elem_of_app. right. by left.
    + eexists. split; [done|]. apply Hmk; simpl; try done; [by left|].
      unfold indoor_free. by rewrite Hindoor.
Qed.

Lemma rainy_loop_window fuel t s final :
  pool <> [] -> window t s -> rr_loop fuel true s = Some final ->
  exists t', window t' final /\ rr_guard final = false.
Proof.
  intros Hne. revert t s. induction fuel as [|fuel IH]; intros t s Hw; simpl.
  - destruct (rr_guard s) eqn:Hg; [done|]. intros [= <-]. eauto.
  - destruct (rr_guard s) eqn:Hg; [|intros [= <-]; eauto].
    destruct (rainy_pass t s Hw Hg Hne) as (s' & -> & Hw'). by apply (IH (S t)).
Qed.

(** When the round-robin pass of a rainy day ends short of the limit, it
    has taken every indoor entry that was free. *)
Lemma rainy_short_uses_indoor s1 :
  rr_loop rr_bound true (MkSel cursor 0 [] taken) = Some s1 ->
  Z.of_nat (length (day_selected s1)) < daily_limit ->
  forall p, p ∈ pool -> pe_is_indoor p = true -> pe_name p ∈ assigned s1.
Proof.
  intros Hrun Hshort p Hp Hindoor.
  assert (pool <> []) as Hne by (intros E; rewrite E in Hp; by apply elem_of_nil in Hp).
  destruct (rainy_loop_window _ 0 _ _ Hne (window_start pool daily_limit taken cursor) Hrun)
    as (t & [Hok _ Hatt _ Hpass] & Hg).
  rewrite (ok_assigned _ _ _ _ Hok). apply elem_of_union.
  destruct (decide (pe_name p ∈ taken)) as [Hin|Hfree]; [by left|right].
  apply elem_of_list_to_set.
  apply andb_false_iff in Hg as [Hg|Hg]; [apply Z.ltb_ge in Hg; lia|].
  apply Nat.ltb_ge in Hg. unfold rr_bound in Hg.
  apply list_elem_of_lookup_1 in Hp as [q Hq].
  destruct (cursor_reaches cursor (length pool) q) as (j & Hj & Hjq).
  { by eapply lookup_lt_Some. }
  apply (Hpass j p); [lia|by rewrite Hjq|].
  unfold indoor_free. rewrite Hindoor. by apply bool_decide_eq_true_2.
Qed.

Lemma select_rainy_day_soft :
  let s := select_day pool daily_limit true cursor taken in
  (forall n, n ∈ day_selected s ->
     exists p, p ∈ pool /\ pe_name p = n /\ pe_is_indoor p = true)
  \/ (forall p, p ∈ pool -> pe_is_indoor p = true -> pe_name p ∈ assigned s).
Proof.
  unfold select_day.
  destruct (round_robin_result pool daily_limit true cursor taken) as (s1 & Hrun & Hok).
  rewrite Hrun. simpl.
  destruct (_ <? _) eqn:Hlt.
  - right. apply Z.ltb_lt in Hlt. intros p Hp Hin.
    apply backfill_assigned_mono. by apply (rainy_short_uses_indoor s1).
  - left. destruct pool as [|p0 pl] eqn:Hpool.
    + intros n Hn. destruct (ok_pool _ _ _ _ Hok n Hn) as (p & Hp & _).
      by apply elem_of_nil in Hp.
    + rewrite <- Hpool in *.
      destruct (rainy_loop_window _ 0 _ _ (ltac:(by rewrite Hpool))
                  (window_start pool daily_limit taken cursor) Hrun)
        as (t & [_ _ _ Hind _] & _).
      exact Hind.
Qed.

End RainIsSoft.

(** X25: rain keeps outdoor places away only as long as indoor places are
    left: on a rainy day either every selected place is indoor, or, by the
    end of that day, every indoor place of the pool is assigned. *)
Theorem outdoor_on_rainy_day_only_when_indoor_used_up pool precip tmax tmin daily_limit
    isoformat sd num_days i :
  (i < num_days)%nat ->
  rainy_day precip i = true ->
  exists chosen,
    p_days (plan pool precip tmax tmin daily_limit isoformat sd num_days) !! i = Some chosen
    /\ ((forall n, n ∈ chosen ->
           exists p, p ∈ pool /\ pe_name p = n /\ pe_is_indoor p = true)
        \/ (forall p, p ∈ pool -> pe_is_indoor p = true ->
              pe_name p ∈ p_assigned (plan pool precip tmax tmin daily_limit isoformat sd
                                        (S i)))).
Proof.
  intros Hi Hrain. eexists. split; [by apply plan_day_lookup|].
  rewrite plan_assigned_S, Hrain. apply select_rainy_day_soft.
Qed.

Lemma outdoor_on_rainy_day_only_when_indoor_used_up_witness :
  exists chosen,
    p_days (plan Demo.pool6 [JNum (Fin 5)] [] [] 3 pretty 0 1) !! 0%nat = Some chosen
    /\ ((forall n, n ∈ chosen ->
           exists p, p ∈ Demo.pool6 /\ pe_name p = n /\ pe_is_indoor p = true)
        \/ (forall p, p ∈ Demo.pool6 -> pe_is_indoor p = true ->
              pe_name p ∈ p_assigned (plan Demo.pool6 [JNum (Fin 5)] [] [] 3 pretty 0 1))).
Proof.
  apply (outdoor_on_rainy_day_only_when_indoor_used_up Demo.pool6 [JNum (Fin 5)] [] [] 3
           pretty 0 1 0); [lia|reflexivity].
Defined.


